(** * SnS-LED-Signatures: the overhead-camera tracking loop of [main.py]

    A shallow embedding of [main.py]: the per-frame assembly of the
    [bot_positions] dictionary, the TCP start-up sequence and the
    send/acknowledge step of the main loop, with the properties the
    design document states about them.

    Conventions.
    - Python floats are rationals ([Q]); scores, which are compared with
      [math.inf], live in [pyfloat], which adds the infinities and NaN.
    - Calls that may raise return a [result]; code that also prints or
      talks to the socket runs in [M], which collects the events in program
      order and stops at the first exception that is not caught.
    - The modules [botDetector] and [OverheadCamera] are imported by
      [main.py] but are not part of it; they are the records [BotDetector]
      and [OverheadCamera] the model is parameterised by. *)

From Stdlib Require Import String List ZArith QArith Bool Permutation Sorted Lia Lqa.
Import ListNotations.

Set Implicit Arguments.

(** ** Python values *)

Module Py.

(** Exception classes: the one [main] has a handler for, and any other. *)
Inductive exn : Type :=
| BrokenPipeError
| Exception (name : string).

Inductive result (A : Type) : Type :=
| Ok (a : A)
| Raise (e : exn).

Arguments Ok {A} a.
Arguments Raise {A} e.

(** A float as far as [<] can tell: a finite value, an infinity or NaN. *)
Inductive pyfloat : Type :=
| PFin (q : Q)
| PInf
| PNegInf
| PNaN.

Definition Qltb (a b : Q) : bool := negb (Qle_bool b a).

(** [a < b] on floats; every comparison with NaN is false. *)
Definition flt (a b : pyfloat) : bool :=
  match a, b with
  | PNaN, _ | _, PNaN => false
  | PNegInf, PNegInf => false
  | PNegInf, _ => true
  | _, PNegInf => false
  | PInf, _ => false
  | PFin _, PInf => true
  | PFin x, PFin y => Qltb x y
  end.

Definition is_finite (a : pyfloat) : bool :=
  match a with PFin _ => true | _ => false end.

(** [int(q)]: truncation towards zero. *)
Definition py_int (q : Q) : Z := Z.quot (Qnum q) (Zpos (Qden q)).

(** A [dict] with string keys, in insertion order (the order in which
    [json.dumps] writes the entries). *)
Definition dict (V : Type) : Type := list (string * V).

(** [d[k] = v]: replaces the value of an existing key in place, appends a
    new key at the end. *)
Fixpoint dict_set {V : Type} (k : string) (v : V) (d : dict V) : dict V :=
  match d with
  | [] => [(k, v)]
  | (k', v') :: d' =>
      if String.eqb k' k then (k, v) :: d' else (k', v') :: dict_set k v d'
  end.

Fixpoint dict_get {V : Type} (k : string) (d : dict V) : option V :=
  match d with
  | [] => None
  | (k', v') :: d' => if String.eqb k' k then Some v' else dict_get k d'
  end.

Definition keys {V : Type} (d : dict V) : list string := map fst d.

(** The documents [json.dumps] is applied to. *)
#[local] Set Warnings "-register-all".
Inductive json : Type :=
| JNull
| JInt (z : Z)
| JNum (q : Q)
| JArr (items : list json)
| JObj (members : list (string * json)).

End Py.
Import Py.

(** ** Geometry *)

(** A point is the tuple [(x, y)] appended to [LEDs]; a group is one of the
    lists returned by [groupNearbyPoints]. *)
Definition point : Type := (Q * Q)%type.
Definition group : Type := list point.

(** A field position stored in [bot_positions]: a point, or [None]. *)
Definition position : Type := option point.

(** ** Run parameters (module level constants of [main.py]) *)

Definition RUN_SERVER : bool := true.
Definition IS_RPI : bool := false.
Definition DISPLAY : bool := true.
Definition SAVE_FRAME_RATE : Z := 0.
Definition HAS_COMPASS : bool := false.
Definition RUN_DETECTION : bool := true.

Definition PACKET_SIZE : Z := 1024.

Definition port : Z := 5000.

(** [configDataPacket()], before [json.dumps] turns it into text. *)
Definition configDataPacket : json :=
  JObj [("FPS"%string, JInt SAVE_FRAME_RATE);
        ("PACKET_SIZE"%string, JInt PACKET_SIZE)].

(** ** What the program does to the outside world *)

(** A connection is known by the handle [accept] returned. *)
Definition connection : Type := nat.

Inductive message : Type :=
| MsgStartingServer
| MsgListening
| MsgAccepting
| MsgMatchingScore (score : pyfloat)
| MsgCompassHeading (angle : Q)
| MsgSending (data : json)
| MsgClientClosed          (* "The client suddenly closed. Continuing to listen..." *)
| MsgSocketClosed.         (* "TCP socket closed..." *)

Inductive event : Type :=
| EvPrint (msg : message)
| EvListen (p : Z)                        (* socket, bind and listen(1) *)
| EvAccept (conn : connection)            (* server_socket.accept() returned conn *)
| EvSend (conn : connection) (data : json)  (* conn.send(data.encode()) *)
| EvRecv (conn : connection) (bufsize : Z)  (* conn.recv(bufsize) *)
| EvClose (conn : connection)             (* conn.close() *)
| EvMakeDirs
| EvImwrite (now : Q)
| EvImshow
| EvDestroyAllWindows
| EvRelease                               (* picam2.stop() or vid.release() *)
| EvMakeVideo.

(** The writer/exception monad the statements of [main.py] run in.  An
    event stands for a call; the events after it are those of the
    statements run once the call has returned, and there are none if it
    raised an exception that nothing catches. *)
Definition M (A : Type) : Type := (list event * result A)%type.

Definition ret {A : Type} (a : A) : M A := ([], Ok a).

Definition bind {A B : Type} (m : M A) (k : A -> M B) : M B :=
  match m with
  | (tr, Ok a) => let (tr', r) := k a in (tr ++ tr', r)
  | (tr, Raise e) => (tr, Raise e)
  end.

Definition emit (e : event) : M unit := ([e], Ok tt).

Definition call {A : Type} (r : result A) : M A := ([], r).

Definition trace {A : Type} (m : M A) : list event := fst m.
Definition outcome {A : Type} (m : M A) : result A := snd m.

Declare Scope py_scope.
Delimit Scope py_scope with py.
Notation "x <- m ;; k" := (bind m (fun x => k))
  (at level 61, m at next level, right associativity) : py_scope.
Notation "' pat <- m ;; k" := (bind m (fun x => match x with pat => k end))
  (at level 61, pat pattern, m at next level, right associativity) : py_scope.
Notation "m ;; k" := (bind m (fun _ => k))
  (at level 61, right associativity) : py_scope.
Open Scope py_scope.

(** [for x in xs: s = body(s, x)] *)
Fixpoint for_each {A S : Type} (body : S -> A -> M S) (xs : list A) (s : S)
  : M S :=
  match xs with
  | [] => ret s
  | x :: xs' => s' <- body s x ;; for_each body xs' s'
  end.

(** [try: body  except BrokenPipeError: handler] *)
Definition try_except_BrokenPipeError (body handler : M unit) : M unit :=
  match body with
  | (tr, Raise BrokenPipeError) => let (tr', r) := handler in (tr ++ tr', r)
  | other => other
  end.

(** ** The imported modules *)

(** What [main.py] uses of [botDetector] (and of [botPatterns], which it
    re-exports).  The module is not part of [main.py]: its functions are
    parameters of the model, each free to return or to raise. *)
Record BotDetector : Type := {
  pattern : Type;
  getPattern : string -> result pattern;
  detectShape : group -> pattern -> result pyfloat;
  groupNearbyPoints : list point -> Q -> result (list group);
  groupCenter : option group -> result position
}.

(** What [main.py] uses of the [OverheadCamera] object [cam] and of the
    class constants; they are parameters of the model as well. *)
Record OverheadCamera : Type := {
  pixelsToCartesian : Z -> Z -> result (Q * Q * Q);
  x_offset : Q;
  y_offset : Q;
  FIELD_LENGTH : Q;
  FIELD_WIDTH : Q
}.

(** ** What the environment supplies *)

(** One contour found in a frame: the moments [main] reads and its area. *)
Record contour : Type := {
  m00 : Q;
  m10 : Q;
  m01 : Q;
  contourArea : Q
}.

(** Everything one iteration of the main loop takes from outside. *)
Record frame_input : Type := {
  key_q : bool;               (* cv2.waitKey(1) & 0xFF == ord('q') *)
  contours : list contour;    (* getAllContours(binary_m) *)
  now : Q;                    (* time.time() *)
  heading : Q;                (* getPitch() *)
  send_result : result unit;  (* how conn.send(...) ends *)
  recv_result : result unit   (* how conn.recv(PACKET_SIZE).decode() ends *)
}.

(** What the start-up code takes from outside. *)
Record session_env : Type := {
  accepted : connection;            (* the conn that accept() returns *)
  config_send_result : result unit; (* how the send of the first packet ends *)
  start : Q                         (* time.time() at the start of main *)
}.

(** ** [main.py] *)

Section Main.

Variable bd : BotDetector.
Variable cam : OverheadCamera.

(** The body of [for contour in contours] (lines 217-236): a contour with
    non-zero [m00] and an area above 1 contributes the field coordinates of
    its centre.  The drawing on the frame is left out. *)
Definition add_LED (LEDs : list point) (c : contour) : M (list point) :=
  if negb (Qeq_bool (m00 c) 0) && Qltb 1 (contourArea c) then
    let cX := py_int (m10 c / m00 c) in
    let cY := py_int (m01 c / m00 c) in
    '(x, y, z) <- call (pixelsToCartesian cam cX cY) ;;
    ret (LEDs ++ [(x, y)])
  else ret LEDs.

Definition detect_LEDs (cs : list contour) : M (list point) :=
  for_each add_LED cs [].

Definition bots_in_play : list string :=
  ["X"; "Y"; "STAIR"; "H"; "L"]%string.

Definition camera_position : position :=
  Some (x_offset cam + FIELD_LENGTH cam, y_offset cam + FIELD_WIDTH cam).

(** The body of [for group in groups] (lines 257-266), on the pair
    [(best_bot, best_score)]. *)
Definition match_group (bot_pattern : string)
    (best : option group * pyfloat) (g : group)
  : M (option group * pyfloat) :=
  if (length g <? 1)%nat then ret best
  else
    pat <- call (getPattern bd bot_pattern) ;;
    score <- call (detectShape bd g pat) ;;
    if flt score (snd best)
    then emit (EvPrint (MsgMatchingScore score)) ;; ret (Some g, score)
    else ret best.

(** The inner loop (lines 254-266), started from [best_score = math.inf],
    [best_bot = None]. *)
Definition best_match (bot_pattern : string) (groups : list group)
  : M (option group * pyfloat) :=
  for_each (match_group bot_pattern) groups (None, PInf).

(** The body of [for bot_pattern in bots_in_play] (lines 253-269). *)
Definition resolve_bot (groups : list group) (bot_positions : dict position)
    (bot_pattern : string) : M (dict position) :=
  best <- best_match bot_pattern groups ;;
  bot_position <- call (groupCenter bd (fst best)) ;;
  ret (dict_set bot_pattern bot_position bot_positions).

(** Lines 246-269: the dictionary built from the LEDs of one frame. *)
Definition assemble (LEDs : list point) : M (dict position) :=
  let bot_positions := [("CAM"%string, camera_position)] in
  groups <- call (groupNearbyPoints bd LEDs 1) ;;
  for_each (resolve_bot groups) bots_in_play bot_positions.

(** [json.dumps(bot_positions)]: a tuple becomes an array, [None] becomes
    [null]. *)
Definition json_of_position (p : position) : json :=
  match p with
  | Some (x, y) => JArr [JNum x; JNum y]
  | None => JNull
  end.

Definition json_of_positions (bot_positions : dict position) : json :=
  JObj (map (fun kv => (fst kv, json_of_position (snd kv))) bot_positions).

(** The body of the [try] block of lines 277-283. *)
Definition publish (conn : connection) (f : frame_input)
    (bot_positions : dict position) : M unit :=
  let data := json_of_positions bot_positions in
  emit (EvPrint (MsgSending data)) ;;
  emit (EvSend conn data) ;; call (send_result f) ;;
  emit (EvRecv conn PACKET_SIZE) ;; call (recv_result f).

Definition record : bool := (0 <? SAVE_FRAME_RATE)%Z.

(** Only read when [record] holds; it is [math.inf] otherwise. *)
Definition frame_interval : Q := 1 / inject_Z SAVE_FRAME_RATE.

(** How one iteration of [while True] ends: by [break], or at the end of
    the body with the new value of [mark]. *)
Inductive loop_ctl : Type :=
| Break
| Continue (mark : Q).

(** One iteration of the main loop (lines 192-288). *)
Definition frame_body (conn : connection) (mark : Q) (f : frame_input)
  : M loop_ctl :=
  if key_q f then ret Break
  else
    LEDs <- detect_LEDs (contours f) ;;
    mark' <- (if record
              then if Qle_bool 0 (now f - mark)
                   then emit (EvImwrite (now f)) ;; ret (mark + frame_interval)
                   else ret mark
              else ret mark) ;;
    bot_positions <- assemble LEDs ;;
    (if HAS_COMPASS then emit (EvPrint (MsgCompassHeading (heading f)))
     else ret tt) ;;
    (if RUN_SERVER
     then try_except_BrokenPipeError (publish conn f bot_positions)
                                     (emit (EvPrint MsgClientClosed))
     else ret tt) ;;
    (if DISPLAY then emit EvImshow else ret tt) ;;
    ret (Continue mark').

(** How a run over finitely many frames ends: the loop was left by
    [break], or it is still running when the frames supplied are used up. *)
Inductive loop_exit : Type :=
| Stopped
| Running (mark : Q).

(** [while True] (line 192) over the frames the environment supplies. *)
Fixpoint main_loop (conn : connection) (mark : Q) (frames : list frame_input)
  : M loop_exit :=
  match frames with
  | [] => ret (Running mark)
  | f :: frames' =>
      ctl <- frame_body conn mark f ;;
      match ctl with
      | Break => ret Stopped
      | Continue mark' => main_loop conn mark' frames'
      end
  end.

(** [main()] (lines 171-308). *)
Definition main (conn : connection) (start : Q) (frames : list frame_input)
  : M loop_exit :=
  (if record then emit EvMakeDirs else ret tt) ;;
  ex <- main_loop conn start frames ;;
  match ex with
  | Running mark => ret (Running mark)
  | Stopped =>
      (if RUN_SERVER
       then emit (EvClose conn) ;; emit (EvPrint MsgSocketClosed)
       else ret tt) ;;
      (if DISPLAY then emit EvDestroyAllWindows else ret tt) ;;
      emit EvRelease ;;
      (if record then emit EvMakeVideo else ret tt) ;;
      ret Stopped
  end.

(** Lines 153-168: open the socket, accept one client and send it the
    configuration packet. *)
Definition start_server (env : session_env) : M connection :=
  emit (EvPrint MsgStartingServer) ;;
  emit (EvListen port) ;;
  emit (EvPrint MsgListening) ;;
  let conn := accepted env in
  emit (EvAccept conn) ;;
  emit (EvPrint MsgAccepting) ;;
  emit (EvSend conn configDataPacket) ;; call (config_send_result env) ;;
  ret conn.

(** The script from the start of the server to the end of [main()].  When
    [RUN_SERVER] is off, [conn] is never read. *)
Definition program (env : session_env) (frames : list frame_input)
  : M loop_exit :=
  if RUN_SERVER
  then conn <- start_server env ;; main conn (start env) frames
  else main O (start env) frames.

End Main.

(** ** [botDetector]: clustering and centre *)

Module BotDetectorSpec.

(** Squared Euclidean distance of two points. *)
Definition dist2 (p q : point) : Q :=
  (fst p - fst q) * (fst p - fst q) + (snd p - snd q) * (snd p - snd q).

(** [p] and [q] are at most [radius] apart. *)
Definition near (radius : Q) (p q : point) : bool :=
  Qle_bool 0 radius && Qle_bool (dist2 p q) (radius * radius).

(** Some member of [g] is at most [radius] from [p]. *)
Definition touches (radius : Q) (p : point) (g : group) : bool :=
  existsb (near radius p) g.

(** Modelled from the spec: [botDetector.groupNearbyPoints] is not in
    [main.py].  The design document (4.1) has [cluster(points, radius)]
    put two points in the same cluster when a chain of points, each at
    most [radius] from the next, links them, and has it return no cluster
    for no points.  Each point joins the groups it touches, which merge
    into one. *)
Fixpoint groupNearbyPoints (points : list point) (radius : Q) : list group :=
  match points with
  | [] => []
  | p :: points' =>
      let (hit, miss) :=
        partition (touches radius p) (groupNearbyPoints points' radius) in
      (p :: concat hit) :: miss
  end.

Definition Qsum (xs : list Q) : Q := fold_right Qplus 0 xs.

Definition mean (xs : list Q) : Q :=
  Qsum xs / inject_Z (Z.of_nat (length xs)).

(** Modelled from the spec: [botDetector.groupCenter] is not in [main.py].
    The design document (4.3) has [center(cluster)] return the arithmetic
    mean of the member points, and "none" for an absent or empty cluster
    without failing. *)
Definition groupCenter (g : option group) : position :=
  match g with
  | None => None
  | Some [] => None
  | Some pts => Some (mean (map fst pts), mean (map snd pts))
  end.

(** [botDetector] with the clustering and the centre of the design
    document; the catalog and the scoring function stay open. *)
Definition botDetector (pattern : Type)
    (getPattern : string -> result pattern)
    (detectShape : group -> pattern -> result pyfloat) : BotDetector :=
  Build_BotDetector getPattern detectShape
    (fun points radius => Ok (groupNearbyPoints points radius))
    (fun g => Ok (groupCenter g)).

(** A chain of points of [points], each at most [radius] from the next,
    leads from [p] to [q]. *)
Inductive linked (radius : Q) (points : list point) : point -> point -> Prop :=
| linked_here (p : point) :
    In p points -> linked radius points p p
| linked_next (p q r : point) :
    In p points -> near radius p q = true -> linked radius points q r ->
    linked radius points p r.

(** [p] and [q] are in the same cluster. *)
Definition same_group (gs : list group) (p q : point) : Prop :=
  exists g, In g gs /\ In p g /\ In q g.

(** Two clusters at different places of a cluster list share no point. *)
Definition pairwise_disjoint (gs : list group) : Prop :=
  forall i j g1 g2 p,
    i <> j -> nth_error gs i = Some g1 -> nth_error gs j = Some g2 ->
    In p g1 -> ~ In p g2.

End BotDetectorSpec.

(** ** A small instance to run the model on *)

Module Sample.

(** A catalog that knows each bot by its number of LEDs, and a score that
    is the difference between that number and the size of the group. *)
Definition getPattern (name : string) : result nat :=
  if String.eqb name "X" then Ok 5%nat
  else if String.eqb name "Y" then Ok 3%nat
  else if String.eqb name "STAIR" then Ok 4%nat
  else if String.eqb name "H" then Ok 7%nat
  else if String.eqb name "L" then Ok 2%nat
  else Raise (Exception "KeyError").

Definition detectShape (g : group) (n : nat) : result pyfloat :=
  Ok (PFin (inject_Z (Z.abs (Z.of_nat (length g) - Z.of_nat n)))).

Definition bd : BotDetector :=
  BotDetectorSpec.botDetector getPattern detectShape.

(** A camera that sees one unit of the field per pixel, over a 150 by 75
    field. *)
Definition cam : OverheadCamera :=
  {| pixelsToCartesian := fun cX cY => Ok (inject_Z cX, inject_Z cY, 0);
     x_offset := 0;
     y_offset := 0;
     FIELD_LENGTH := 150;
     FIELD_WIDTH := 75 |}.

Definition blob (x y : Z) : contour :=
  {| m00 := 4; m10 := inject_Z (4 * x); m01 := inject_Z (4 * y);
     contourArea := 4 |}.

(** A frame with two LEDs close together and one far away, the points
    detected in it and the dictionary assembled from them. *)
Definition frame : frame_input :=
  {| key_q := false;
     contours := [blob 1 1; blob 2 1; blob 9 6];
     now := 10;
     heading := 0;
     send_result := Ok tt;
     recv_result := Ok tt |}.

Definition LEDs : list point := [(1, 1); (2, 1); (9, 6)].

Definition snapshot : dict position :=
  [("CAM", Some (150, 75)); ("X", Some (3 # 2, 2 # 2));
   ("Y", Some (3 # 2, 2 # 2)); ("STAIR", Some (3 # 2, 2 # 2));
   ("H", Some (3 # 2, 2 # 2)); ("L", Some (3 # 2, 2 # 2))]%string.

(** A frame without LEDs, and the packet sent for it. *)
Definition dark_frame : frame_input :=
  {| key_q := false;
     contours := [];
     now := 11;
     heading := 0;
     send_result := Ok tt;
     recv_result := Ok tt |}.

Definition dark_snapshot : dict position :=
  [("CAM", Some (150, 75)); ("X", None); ("Y", None); ("STAIR", None);
   ("H", None); ("L", None)]%string.

Definition dark_packet : json :=
  JObj [("CAM", JArr [JNum 150; JNum 75]); ("X", JNull); ("Y", JNull);
        ("STAIR", JNull); ("H", JNull); ("L", JNull)]%string.

(** The same frame, with the client gone when the packet is sent. *)
Definition dark_frame_send_fails : frame_input :=
  {| key_q := false;
     contours := [];
     now := 12;
     heading := 0;
     send_result := Raise BrokenPipeError;
     recv_result := Ok tt |}.

Definition conn : connection := 7%nat.

Definition env : session_env :=
  {| accepted := conn; config_send_result := Ok tt; start := 9 |}.

End Sample.

(** ** Vocabulary of the statements *)

Section Vocabulary.

Variable bd : BotDetector.

(** [detectShape(g, getPattern(b))] returns [s]. *)
Definition scored (b : string) (g : group) (s : pyfloat) : Prop :=
  exists pat, getPattern bd b = Ok pat /\ detectShape bd g pat = Ok s.

(** What [(best_bot, best_score)] is after the groups [seen] have gone
    through the inner loop for [b]: nothing with score infinity, or one of
    the non-empty groups seen with its score; and no non-empty group seen
    has a score below [best_score]; each of them was scored. *)
Definition best_of (b : string) (seen : list group)
    (best : option group * pyfloat) : Prop :=
  match fst best with
  | None => snd best = PInf
  | Some g => In g seen /\ g <> [] /\ scored b g (snd best)
  end
  /\ (forall g' s', In g' seen -> g' <> [] -> scored b g' s' ->
                    flt s' (snd best) = false)
  /\ (forall g', In g' seen -> g' <> [] -> exists s', scored b g' s').

(** What the outer loop has done to the dictionary [d0] once the bots
    [seen] are through. *)
Definition resolved (groups : list group) (d0 : dict position)
    (seen : list string) (d : dict position) : Prop :=
  NoDup (keys d0 ++ seen) ->
  keys d = keys d0 ++ seen
  /\ (forall k, ~ In k seen -> dict_get k d = dict_get k d0)
  /\ (forall b, In b seen ->
       exists best pos,
         outcome (best_match bd b groups) = Ok best
         /\ groupCenter bd (fst best) = Ok pos
         /\ dict_get b d = Some pos).

End Vocabulary.

(** The events on the TCP socket. *)
Definition is_socket_io (e : event) : bool :=
  match e with
  | EvListen _ | EvAccept _ | EvSend _ _ | EvRecv _ _ | EvClose _ => true
  | _ => false
  end.

Definition socket_events (tr : list event) : list event :=
  filter is_socket_io tr.

(** The packets handed to [conn.send], in order. *)
Fixpoint sent (tr : list event) : list json :=
  match tr with
  | [] => []
  | EvSend _ data :: tr' => data :: sent tr'
  | _ :: tr' => sent tr'
  end.

(** What one send/acknowledge cycle does on the socket: the send, and the
    read of the reply when the send came back. *)
Definition cycle (conn : connection) (data : json) (sent_ok : result unit)
  : list event :=
  match sent_ok with
  | Ok _ => [EvSend conn data; EvRecv conn PACKET_SIZE]
  | Raise _ => [EvSend conn data]
  end.

(** The send of the packet, or the read of the reply, raises
    [BrokenPipeError], the exception the handler of line 284 names. *)
Definition broken_pipe (f : frame_input) : Prop :=
  send_result f = Raise BrokenPipeError
  \/ (send_result f = Ok tt /\ recv_result f = Raise BrokenPipeError).

(** The snapshot of a frame: the dictionary assembled from the LEDs
    detected in it. *)
Definition frame_snapshot (bd : BotDetector) (cam : OverheadCamera)
    (f : frame_input) : M (dict position) :=
  LEDs <- detect_LEDs cam (contours f) ;; assemble bd cam LEDs.

Definition is_print (e : event) : Prop :=
  match e with EvPrint _ => True | _ => False end.

(** The list of socket events opens with a read. *)
Definition starts_with_recv (tr : list event) : bool :=
  match tr with
  | EvRecv _ _ :: _ => true
  | _ => false
  end.

(** The event neither opens nor closes a connection. *)
Definition keeps_connection (e : event) : bool :=
  match e with
  | EvListen _ | EvAccept _ | EvClose _ => false
  | _ => true
  end.

(** The first member of a JSON object. *)
Definition first_key (j : json) : option string :=
  match j with
  | JObj ((k, _) :: _) => Some k
  | _ => None
  end.

(** ** The recording of the frames *)

Module Recording.

Section Rate.

(** The run parameter [SAVE_FRAME_RATE] of line 28, left open. *)
Variable SAVE_FRAME_RATE : Z.

(** The floating-point operations of lines 179, 241 and 242.  A finite
    float is a rational number, so the times are in [Q]; but Python rounds
    the result of [1 / SAVE_FRAME_RATE], of [now - mark] and of
    [mark + frame_interval], so the three operations are left open:
    nothing is known of them but what a statement supposes. *)
Variable fdiv : Q -> Q -> Q.
Variable fsub : Q -> Q -> Q.
Variable fadd : Q -> Q -> Q.

(** Lines 176-180. *)
Definition record : bool := (0 <? SAVE_FRAME_RATE)%Z.

Definition frame_interval : Q := fdiv 1 (inject_Z SAVE_FRAME_RATE).

(** Lines 238-244 in one iteration, at the time [now] that [time.time()]
    returns: the image written, if any, and the new value of [mark]. *)
Definition save_frame (mark now : Q) : list event * Q :=
  if record
  then if Qle_bool 0 (fsub now mark)
       then ([EvImwrite now], fadd mark frame_interval)
       else ([], mark)
  else ([], mark).

(** The same over the iterations of a run, given the times read in
    them. *)
Fixpoint save_frames (mark : Q) (nows : list Q) : list event * Q :=
  match nows with
  | [] => ([], mark)
  | now :: nows' =>
      let (tr, mark') := save_frame mark now in
      let (tr', mark'') := save_frames mark' nows' in
      (tr ++ tr', mark'')
  end.

End Rate.

End Recording.

(** ** [makeVideo] (lines 54-68) *)

Module MakeVideo.

(** [s.endswith(suffix)] *)
Definition endswith (s suffix : string) : bool :=
  let n := String.length s in
  let m := String.length suffix in
  (m <=? n)%nat && String.eqb (substring (n - m) m s) suffix.

(** [sorted(names)] on strings, which Python orders character by
    character. *)
Fixpoint insert (x : string) (l : list string) : list string :=
  match l with
  | [] => [x]
  | y :: l' => if String.leb x y then x :: l else y :: insert x l'
  end.

Definition sorted (names : list string) : list string :=
  fold_right insert [] names.

Section FileSystem.

(** What [cv2.imread] returns. *)
Variable image : Type.

(** [os.listdir], [os.path.join], [cv2.imread] and the attribute [shape],
    which an image that could not be read does not have. *)
Variable listdir : string -> result (list string).
Variable path_join : string -> string -> string.
Variable imread : string -> image.
Variable shape : image -> result (Z * Z * Z).

(** What [makeVideo] does to the video file. *)
Inductive video_op : Type :=
| VideoWriter (file fourcc : string) (fps : Z) (frame_size : Z * Z)
| Write (img : image)
| Release.

Definition makeVideo (name image_folder : string) : result (list video_op) :=
  match listdir image_folder with
  | Raise e => Raise e
  | Ok names =>
      let images := filter (fun img => endswith img ".jpg") (sorted names) in
      if (length images <? 1)%nat then Ok []
      else
        match shape (imread (path_join image_folder (hd ""%string images))) with
        | Raise e => Raise e
        | Ok (height, width, layers) =>
            Ok (VideoWriter (name ++ ".mp4") "mp4v" SAVE_FRAME_RATE
                            (width, height)
                :: map (fun img => Write (imread (path_join image_folder img)))
                       images
                ++ [Release])
        end
  end.

End FileSystem.

End MakeVideo.

(** ** More of the small instance *)

Module SampleFaults.

(** The catalog of [Sample] without the bot X. *)
Definition getPattern (name : string) : result nat :=
  if String.eqb name "X" then Raise (Exception "KeyError")
  else Sample.getPattern name.

Definition bd : BotDetector :=
  BotDetectorSpec.botDetector getPattern Sample.detectShape.

(** A frame during which the key q is down. *)
Definition quit_frame : frame_input :=
  {| key_q := true;
     contours := contours Sample.frame;
     now := 14;
     heading := 0;
     send_result := Ok tt;
     recv_result := Ok tt |}.

(** A frame whose send raises an exception other than
    [BrokenPipeError]. *)
Definition frame_reset : frame_input :=
  {| key_q := false;
     contours := [];
     now := 15;
     heading := 0;
     send_result := Raise (Exception "ConnectionResetError");
     recv_result := Ok tt |}.

(** A frame whose send comes back and whose read of the reply raises that
    exception. *)
Definition frame_reset_on_read : frame_input :=
  {| key_q := false;
     contours := [];
     now := 16;
     heading := 0;
     send_result := Ok tt;
     recv_result := Raise (Exception "ConnectionResetError") |}.

(** A folder with two images and a text file; an image is known by its
    path, and every image is 1280 by 720. *)
Definition listdir (folder : string) : result (list string) :=
  Ok ["11.5.jpg"; "notes.txt"; "10.5.jpg"]%string.

Definition path_join (folder file : string) : string :=
  (folder ++ "/" ++ file)%string.

Definition imread (path : string) : string := path.

Definition shape (img : string) : result (Z * Z * Z) :=
  Ok (720, 1280, 3)%Z.

End SampleFaults.

(** ** Vocabulary of the further properties *)

(** The test of line 221: the contour has a non-zero [m00] and an area
    above 1. *)
Definition is_LED (c : contour) : bool :=
  negb (Qeq_bool (m00 c) 0) && Qltb 1 (contourArea c).

(** The pixel [(cX, cY)] of lines 226-227. *)
Definition centre (c : contour) : Z * Z :=
  (py_int (m10 c / m00 c), py_int (m01 c / m00 c)).

(** The scores printed as "Matching score: ...", in order. *)
Fixpoint printed_scores (tr : list event) : list pyfloat :=
  match tr with
  | [] => []
  | EvPrint (MsgMatchingScore s) :: tr' => s :: printed_scores tr'
  | _ :: tr' => printed_scores tr'
  end.

(** A list of socket events made of sends on [conn], each followed by at
    most one read on [conn]. *)
Fixpoint send_recv_cycles (conn : connection) (tr : list event) : bool :=
  match tr with
  | [] => true
  | EvSend c _ :: tr' =>
      Nat.eqb c conn
      && match tr' with
         | EvRecv c' _ :: tr'' => Nat.eqb c' conn && send_recv_cycles conn tr''
         | _ => send_recv_cycles conn tr'
         end
  | _ => false
  end.

(** Neither the send nor the read of the frame raises an exception the
    handler of the main loop does not catch. *)
Definition survivable (f : frame_input) : bool :=
  match send_result f with
  | Raise (Exception _) => false
  | Raise BrokenPipeError => true
  | Ok _ => match recv_result f with
            | Raise (Exception _) => false
            | _ => true
            end
  end.

(** The resources [main] releases after the loop. *)
Definition is_release (e : event) : bool :=
  match e with
  | EvClose _ | EvDestroyAllWindows | EvRelease => true
  | _ => false
  end.

(** * Properties *)

(** ** The monad *)

Lemma trace_bind {A B : Type} (m : M A) (k : A -> M B) :
  trace (bind m k)
  = trace m ++ match outcome m with
               | Ok a => trace (k a)
               | Raise _ => []
               end.
Proof.
  destruct m as [tr [a | e]]; simpl.
  - destruct (k a); reflexivity.
  - now rewrite app_nil_r.
Qed.

Lemma outcome_bind {A B : Type} (m : M A) (k : A -> M B) :
  outcome (bind m k)
  = match outcome m with
    | Ok a => outcome (k a)
    | Raise e => Raise e
    end.
Proof.
  destruct m as [tr [a | e]]; simpl; [destruct (k a) |]; reflexivity.
Qed.

Lemma outcome_bind_Ok {A B : Type} (m : M A) (k : A -> M B) (b : B) :
  outcome (bind m k) = Ok b ->
  exists a, outcome m = Ok a /\ outcome (k a) = Ok b.
Proof.
  rewrite outcome_bind. destruct (outcome m) as [a | e]; [eauto | discriminate].
Qed.

Lemma outcome_ret {A : Type} (a : A) : outcome (ret a) = Ok a.
Proof. reflexivity. Qed.

Lemma outcome_call {A : Type} (r : result A) : outcome (call r) = r.
Proof. reflexivity. Qed.

Lemma trace_call {A : Type} (r : result A) : trace (call r) = [].
Proof. reflexivity. Qed.

(** Splits a hypothesis [outcome (x <- m ;; k) = Ok b] along the bind. *)
Ltac bind_inv H :=
  let a := fresh "a" in
  let Ha := fresh "Ha" in
  apply outcome_bind_Ok in H; destruct H as (a & Ha & H);
  try rewrite outcome_call in Ha.

(** A property of the loop variable that every iteration keeps holds when
    the loop ends. *)
Lemma for_each_invariant {A S : Type} (body : S -> A -> M S)
    (I : list A -> S -> Prop) :
  (forall seen s x s', I seen s -> outcome (body s x) = Ok s' ->
                       I (seen ++ [x]) s') ->
  forall xs seen s s',
    I seen s -> outcome (for_each body xs s) = Ok s' -> I (seen ++ xs) s'.
Proof.
  intros Hstep xs. induction xs as [| x xs IH]; intros seen s s' HI H.
  - simpl in H. injection H as <-. now rewrite app_nil_r.
  - simpl in H. bind_inv H.
    replace (seen ++ x :: xs) with ((seen ++ [x]) ++ xs)
      by now rewrite <- app_assoc.
    eapply IH; eauto.
Qed.

(** A loop whose iterations all return returns. *)
Lemma for_each_returns {A S : Type} (body : S -> A -> M S) (xs : list A) :
  (forall s x, In x xs -> exists s', outcome (body s x) = Ok s') ->
  forall s, exists s', outcome (for_each body xs s) = Ok s'.
Proof.
  induction xs as [| x xs IH]; intros Hbody s; simpl.
  - eauto.
  - rewrite outcome_bind.
    destruct (Hbody s x (or_introl eq_refl)) as [s1 ->].
    apply IH. intros; apply Hbody; now right.
Qed.

(** What every event of every iteration satisfies, every event of the loop
    satisfies. *)
Lemma for_each_trace {A S : Type} (body : S -> A -> M S) (P : event -> Prop) :
  (forall s x, Forall P (trace (body s x))) ->
  forall xs s, Forall P (trace (for_each body xs s)).
Proof.
  intros Hbody xs. induction xs as [| x xs IH]; intros s; simpl.
  - constructor.
  - rewrite trace_bind. apply Forall_app; split; [apply Hbody |].
    destruct (outcome (body s x)); [apply IH | constructor].
Qed.

(** ** Float comparison *)

Lemma Qltb_lt (x y : Q) : Qltb x y = true <-> x < y.
Proof.
  unfold Qltb. rewrite negb_true_iff. split; intros H.
  - apply Qnot_le_lt. intros Hle. apply Qle_bool_iff in Hle. congruence.
  - destruct (Qle_bool y x) eqn:E; [| reflexivity].
    apply Qle_bool_iff in E. exfalso. eapply Qlt_not_le; eauto.
Qed.

Lemma flt_irrefl (a : pyfloat) : flt a a = false.
Proof.
  destruct a as [q | | |]; simpl; try reflexivity.
  destruct (Qltb q q) eqn:E; [| reflexivity].
  apply Qltb_lt in E. exfalso. eapply Qlt_irrefl; eauto.
Qed.

Lemma flt_trans (a b c : pyfloat) :
  flt a b = true -> flt b c = true -> flt a c = true.
Proof.
  destruct a as [x | | |], b as [y | | |], c as [z | | |]; simpl;
    try discriminate; try reflexivity.
  rewrite !Qltb_lt. apply Qlt_trans.
Qed.

(** A score that does not beat the old best does not beat a better one. *)
Lemma flt_not_below (s' s best : pyfloat) :
  flt s' best = false -> flt s best = true -> flt s' s = false.
Proof.
  intros Hs' Hs. destruct (flt s' s) eqn:E; [| reflexivity].
  rewrite (flt_trans _ _ _ E Hs) in Hs'. discriminate.
Qed.

Lemma is_finite_below_inf (s : pyfloat) : is_finite s = true -> flt s PInf = true.
Proof. destruct s; simpl; congruence. Qed.

(** ** Dictionaries *)

Lemma dict_get_set {V : Type} (k k' : string) (v : V) (d : dict V) :
  dict_get k (dict_set k' v d)
  = if String.eqb k' k then Some v else dict_get k d.
Proof.
  induction d as [| [k0 v0] d IH]; simpl.
  - reflexivity.
  - destruct (String.eqb k0 k') eqn:E0; simpl.
    + apply String.eqb_eq in E0. subst k0.
      destruct (String.eqb k' k); reflexivity.
    + rewrite IH. destruct (String.eqb k0 k) eqn:E1; [| reflexivity].
      apply String.eqb_eq in E1. subst k0.
      rewrite String.eqb_sym in E0. now rewrite E0.
Qed.

Lemma keys_set_new {V : Type} (k : string) (v : V) (d : dict V) :
  ~ In k (keys d) -> keys (dict_set k v d) = keys d ++ [k].
Proof.
  induction d as [| [k0 v0] d IH]; simpl; intros Hk.
  - reflexivity.
  - destruct (String.eqb k0 k) eqn:E.
    + apply String.eqb_eq in E. tauto.
    + simpl. f_equal. apply IH. tauto.
Qed.

Lemma keys_json_of_positions_aux (d : dict position) :
  map fst (map (fun kv => (fst kv, json_of_position (snd kv))) d) = keys d.
Proof. unfold keys. rewrite map_map. reflexivity. Qed.

(** ** Matching and assembly *)

Section Assembly.

Variable bd : BotDetector.
Variable cam : OverheadCamera.

Lemma scored_fun (b : string) (g : group) (s s' : pyfloat) :
  scored bd b g s -> scored bd b g s' -> s = s'.
Proof. intros (pat & Hp & Hs) (pat' & Hp' & Hs'). congruence. Qed.

Lemma match_group_keeps (b : string) (seen : list group)
    (best best' : option group * pyfloat) (g : group) :
  best_of bd b seen best ->
  outcome (match_group bd b best g) = Ok best' ->
  best_of bd b (seen ++ [g]) best'.
Proof.
  intros (Hbest & Hmin & Hall) H. unfold match_group in H.
  destruct g as [| p g]; cbn [length Nat.ltb Nat.leb] in H.
  - injection H as <-. split; [| split].
    + destruct (fst best); [| assumption].
      destruct Hbest as (Hin & Hne & Hs). repeat split; auto.
      apply in_or_app; now left.
    + intros g' s' Hin Hne Hs. apply in_app_or in Hin.
      destruct Hin as [Hin | [<- | []]]; [eauto | congruence].
    + intros g' Hin Hne. apply in_app_or in Hin.
      destruct Hin as [Hin | [<- | []]]; [eauto | congruence].
  - bind_inv H. rename a into pat. bind_inv H. rename a into score.
    assert (Hsc : scored bd b (p :: g) score) by (exists pat; auto).
    assert (Hall' : forall g', In g' (seen ++ [p :: g]) -> g' <> [] ->
                          exists s', scored bd b g' s').
    { intros g' Hin Hne. apply in_app_or in Hin.
      destruct Hin as [Hin | [<- | []]]; eauto. }
    destruct (flt score (snd best)) eqn:E.
    + bind_inv H. injection H as <-. simpl. split; [| split; [| exact Hall']].
      * repeat split; [apply in_or_app; right; now left | discriminate | assumption].
      * intros g' s' Hin Hne Hs. apply in_app_or in Hin.
        destruct Hin as [Hin | [<- | []]].
        -- eapply flt_not_below; eauto.
        -- rewrite (scored_fun Hs Hsc). apply flt_irrefl.
    + injection H as <-. split; [| split; [| exact Hall']].
      * destruct (fst best); [| assumption].
        destruct Hbest as (Hin & Hne & Hs). repeat split; auto.
        apply in_or_app; now left.
      * intros g' s' Hin Hne Hs. apply in_app_or in Hin.
        destruct Hin as [Hin | [<- | []]]; [eauto |].
        now rewrite (scored_fun Hs Hsc).
Qed.

(** The inner loop leaves the first of the non-empty groups whose score no
    other non-empty group beats. *)
Lemma best_match_best_of (b : string) (groups : list group)
    (best : option group * pyfloat) :
  outcome (best_match bd b groups) = Ok best -> best_of bd b groups best.
Proof.
  intros H. unfold best_match in H.
  apply (for_each_invariant (match_group bd b) (best_of bd b))
    with (seen := []) (s := (None, PInf)) (xs := groups); auto.
  - intros; eapply match_group_keeps; eauto.
  - split; [reflexivity | split; [intros ? ? [] | intros ? []]].
Qed.

(** With no threshold on the score, a non-empty group whose score is below
    infinity is enough for the inner loop to select some group. *)
Lemma best_match_finds (b : string) (groups : list group)
    (best : option group * pyfloat) (g : group) (s : pyfloat) :
  outcome (best_match bd b groups) = Ok best ->
  In g groups -> g <> [] -> scored bd b g s -> flt s PInf = true ->
  exists g0, fst best = Some g0 /\ In g0 groups /\ g0 <> [].
Proof.
  intros H Hin Hne Hs Hlt. apply best_match_best_of in H.
  destruct H as (Hbest & Hmin & _).
  destruct (fst best) as [g0 |] eqn:E.
  - exists g0. tauto.
  - rewrite <- Hbest in Hlt. rewrite (Hmin g s Hin Hne Hs) in Hlt. discriminate.
Qed.

(** The inner loop returns when the catalog and the scoring function do. *)
Lemma best_match_returns (b : string) (groups : list group) :
  (exists pat, getPattern bd b = Ok pat) ->
  (forall g pat, exists s, detectShape bd g pat = Ok s) ->
  exists best, outcome (best_match bd b groups) = Ok best.
Proof.
  intros [pat Hpat] Hscore. unfold best_match.
  apply for_each_returns. intros best g _. unfold match_group.
  destruct (length g <? 1)%nat; [eexists; reflexivity |].
  rewrite outcome_bind, outcome_call, Hpat, outcome_bind, outcome_call.
  destruct (Hscore g pat) as [s ->].
  destruct (flt s (snd best)); eexists; reflexivity.
Qed.

Lemma resolve_bot_Ok (groups : list group) (d d' : dict position)
    (b : string) :
  outcome (resolve_bot bd groups d b) = Ok d' ->
  exists best pos,
    outcome (best_match bd b groups) = Ok best
    /\ groupCenter bd (fst best) = Ok pos
    /\ d' = dict_set b pos d.
Proof.
  intros H. unfold resolve_bot in H.
  bind_inv H. bind_inv H.
  injection H as <-. eauto.
Qed.

Lemma resolve_bot_keeps (groups : list group) (d0 : dict position)
    (seen : list string) (d d' : dict position) (b : string) :
  resolved bd groups d0 seen d ->
  outcome (resolve_bot bd groups d b) = Ok d' ->
  resolved bd groups d0 (seen ++ [b]) d'.
Proof.
  intros Hres H Hnd. apply resolve_bot_Ok in H.
  destruct H as (best & pos & Hbest & Hpos & ->).
  rewrite app_assoc in Hnd.
  assert (Hnew : ~ In b (keys d0 ++ seen)).
  { apply NoDup_remove_2 in Hnd. now rewrite app_nil_r in Hnd. }
  assert (Hnd' : NoDup (keys d0 ++ seen)).
  { apply NoDup_remove_1 in Hnd. now rewrite app_nil_r in Hnd. }
  destruct (Hres Hnd') as (Hkeys & Hold & Hseen).
  split; [| split].
  - rewrite keys_set_new by now rewrite Hkeys.
    now rewrite Hkeys, app_assoc.
  - intros k Hk. rewrite dict_get_set.
    destruct (String.eqb b k) eqn:E.
    + apply String.eqb_eq in E. subst k. exfalso. apply Hk.
      apply in_or_app; right; now left.
    + apply Hold. intros Hin. apply Hk. apply in_or_app; now left.
  - intros b' Hin. rewrite dict_get_set. apply in_app_or in Hin.
    destruct Hin as [Hin | [<- | []]].
    + destruct (String.eqb b b') eqn:E.
      * apply String.eqb_eq in E. subst b'. exfalso. apply Hnew.
        apply in_or_app; now right.
      * now apply Hseen.
    + rewrite String.eqb_refl. eauto.
Qed.

Lemma bots_in_play_fresh :
  NoDup (keys [("CAM"%string, camera_position cam)] ++ bots_in_play).
Proof.
  simpl. repeat constructor; simpl; intuition discriminate.
Qed.

(** The dictionary [assemble] returns: the camera first, then the bots in
    the order of [bots_in_play], each with the centre of its own best
    match over all the groups. *)
Lemma assemble_Ok (LEDs : list point) (snap : dict position) :
  outcome (assemble bd cam LEDs) = Ok snap ->
  exists groups,
    groupNearbyPoints bd LEDs 1 = Ok groups
    /\ keys snap = "CAM"%string :: bots_in_play
    /\ dict_get "CAM" snap = Some (camera_position cam)
    /\ (forall b, In b bots_in_play ->
         exists best pos,
           outcome (best_match bd b groups) = Ok best
           /\ groupCenter bd (fst best) = Ok pos
           /\ dict_get b snap = Some pos).
Proof.
  intros H. unfold assemble in H. bind_inv H. rename a into groups.
  exists groups. split; [assumption |].
  pose proof (for_each_invariant (resolve_bot bd groups)
                (resolved bd groups [("CAM"%string, camera_position cam)])) as Hinv.
  specialize (Hinv (fun seen s x s' => @resolve_bot_keeps groups _ seen s s' x)).
  specialize (Hinv bots_in_play [] [("CAM"%string, camera_position cam)] snap).
  destruct Hinv as (Hkeys & Hold & Hseen).
  - intros _. split; [reflexivity | split]; [reflexivity | intros ? []].
  - exact H.
  - exact bots_in_play_fresh.
  - repeat split.
    + exact Hkeys.
    + rewrite Hold; [reflexivity |].
      simpl; intuition discriminate.
    + exact Hseen.
Qed.

(** The assembly returns when the imported functions do. *)
Lemma assemble_returns (LEDs : list point) :
  (exists groups, groupNearbyPoints bd LEDs 1 = Ok groups) ->
  (forall b, In b bots_in_play -> exists pat, getPattern bd b = Ok pat) ->
  (forall g pat, exists s, detectShape bd g pat = Ok s) ->
  (forall g, exists pos, groupCenter bd g = Ok pos) ->
  exists snap, outcome (assemble bd cam LEDs) = Ok snap.
Proof.
  intros [groups Hg] Hpat Hscore Hcenter. unfold assemble.
  rewrite outcome_bind, outcome_call, Hg.
  apply for_each_returns. intros d b Hb. unfold resolve_bot.
  destruct (best_match_returns b groups (Hpat b Hb) Hscore) as [best Hbest].
  rewrite outcome_bind, Hbest, outcome_bind, outcome_call.
  destruct (Hcenter (fst best)) as [pos ->]. eexists; reflexivity.
Qed.

End Assembly.

(** ** Traces *)

Lemma socket_events_app (tr1 tr2 : list event) :
  socket_events (tr1 ++ tr2) = socket_events tr1 ++ socket_events tr2.
Proof. apply filter_app. Qed.

Lemma sent_app (tr1 tr2 : list event) : sent (tr1 ++ tr2) = sent tr1 ++ sent tr2.
Proof.
  induction tr1 as [| e tr1 IH]; simpl; [reflexivity |].
  destruct e; simpl; now rewrite ?IH.
Qed.

Lemma prints_no_socket (tr : list event) :
  Forall is_print tr -> socket_events tr = [] /\ sent tr = [].
Proof.
  induction 1 as [| e tr He _ [IH1 IH2]]; [split; reflexivity |].
  destruct e; simpl in *; tauto.
Qed.

Lemma first_key_json_of_positions (snap : dict position) (k : string)
    (ks : list string) :
  keys snap = k :: ks -> first_key (json_of_positions snap) = Some k.
Proof.
  destruct snap as [| [k0 v0] snap]; simpl; [discriminate |].
  now intros [= -> _].
Qed.

Section Traces.

Variable bd : BotDetector.
Variable cam : OverheadCamera.

(** Detecting the LEDs neither prints nor touches the socket. *)
Lemma detect_LEDs_trace (cs : list contour) : trace (detect_LEDs cam cs) = [].
Proof.
  assert (H : Forall (fun _ => False) (trace (detect_LEDs cam cs))).
  { apply for_each_trace. intros LEDs c. unfold add_LED.
    destruct (negb (Qeq_bool (m00 c) 0) && Qltb 1 (contourArea c));
      [| constructor].
    rewrite trace_bind, trace_call, outcome_call.
    destruct (pixelsToCartesian cam _ _) as [[[x y] z] | e]; constructor. }
  destruct (trace (detect_LEDs cam cs)); [reflexivity | now inversion H].
Qed.

(** The assembly only prints. *)
Lemma assemble_trace (LEDs : list point) :
  Forall is_print (trace (assemble bd cam LEDs)).
Proof.
  unfold assemble. rewrite trace_bind, trace_call, outcome_call. cbn [app].
  destruct (groupNearbyPoints bd LEDs 1) as [groups | e]; [| constructor].
  apply for_each_trace. intros d b. unfold resolve_bot.
  rewrite trace_bind. apply Forall_app; split.
  - apply for_each_trace. intros best g. unfold match_group.
    destruct (length g <? 1)%nat; [constructor |].
    rewrite trace_bind, trace_call, outcome_call. cbn [app].
    destruct (getPattern bd b) as [pat | e]; [| constructor].
    rewrite trace_bind, trace_call, outcome_call. cbn [app].
    destruct (detectShape bd g pat) as [score | e]; [| constructor].
    destruct (flt score (snd best)); repeat constructor.
  - destruct (outcome (best_match bd b groups)) as [best | e]; [| constructor].
    rewrite trace_bind, trace_call, outcome_call. cbn [app].
    destruct (groupCenter bd (fst best)); constructor.
Qed.

Lemma frame_snapshot_trace (f : frame_input) :
  Forall is_print (trace (frame_snapshot bd cam f)).
Proof.
  unfold frame_snapshot. rewrite trace_bind, detect_LEDs_trace. simpl.
  destruct (outcome (detect_LEDs cam (contours f))); [| constructor].
  apply assemble_trace.
Qed.

(** One iteration, in terms of the snapshot of its frame and of the
    send/acknowledge step. *)
Lemma frame_body_eq (conn : connection) (mark : Q) (f : frame_input) :
  frame_body bd cam conn mark f
  = if key_q f then ([], Ok Break)
    else
      match outcome (frame_snapshot bd cam f) with
      | Raise e => (trace (frame_snapshot bd cam f), Raise e)
      | Ok snap =>
          let step := try_except_BrokenPipeError
                        (publish conn f snap) (emit (EvPrint MsgClientClosed)) in
          match outcome step with
          | Ok _ => (trace (frame_snapshot bd cam f) ++ trace step ++ [EvImshow],
                     Ok (Continue mark))
          | Raise e => (trace (frame_snapshot bd cam f) ++ trace step, Raise e)
          end
      end.
Proof.
  unfold frame_body, frame_snapshot.
  destruct (key_q f); [reflexivity |].
  destruct (detect_LEDs cam (contours f)) as [tr1 [LEDs | e]];
    [| reflexivity].
  unfold record, HAS_COMPASS, RUN_SERVER, DISPLAY. simpl.
  destruct (assemble bd cam LEDs) as [tr2 [snap | e]]; [| reflexivity].
  simpl.
  destruct (try_except_BrokenPipeError _ _) as [tr3 [[] | e]]; simpl.
  - now rewrite <- !app_assoc.
  - now rewrite <- app_assoc.
Qed.

Lemma publish_socket_events (conn : connection) (f : frame_input)
    (snap : dict position) :
  let step := try_except_BrokenPipeError
                (publish conn f snap) (emit (EvPrint MsgClientClosed)) in
  socket_events (trace step)
  = cycle conn (json_of_positions snap) (send_result f)
  /\ sent (trace step) = [json_of_positions snap].
Proof.
  unfold publish.
  destruct (send_result f) as [[] | [| n]], (recv_result f) as [[] | [| n']];
    split; reflexivity.
Qed.

(** The socket events of one iteration: none when the loop is left or the
    snapshot is not produced, one send/acknowledge cycle otherwise. *)
Lemma frame_body_socket_events (conn : connection) (mark : Q)
    (f : frame_input) :
  socket_events (trace (frame_body bd cam conn mark f))
  = if key_q f then []
    else match outcome (frame_snapshot bd cam f) with
         | Ok snap => cycle conn (json_of_positions snap) (send_result f)
         | Raise _ => []
         end.
Proof.
  rewrite frame_body_eq. destruct (key_q f); [reflexivity |].
  destruct (prints_no_socket (frame_snapshot_trace f)) as [Hq _].
  destruct (outcome (frame_snapshot bd cam f)) as [snap | e]; [| exact Hq].
  destruct (publish_socket_events conn f snap) as [Hc _]. simpl in Hc.
  cbv zeta.
  destruct (outcome (try_except_BrokenPipeError _ _)); unfold trace at 1;
    cbn [fst]; rewrite ?socket_events_app, Hq, Hc; simpl;
    now rewrite ?app_nil_r.
Qed.

(** The packets sent in one iteration: the snapshot of the frame, if the
    loop is not left and the snapshot is produced. *)
Lemma frame_body_sent (conn : connection) (mark : Q) (f : frame_input) :
  sent (trace (frame_body bd cam conn mark f))
  = if key_q f then []
    else match outcome (frame_snapshot bd cam f) with
         | Ok snap => [json_of_positions snap]
         | Raise _ => []
         end.
Proof.
  rewrite frame_body_eq. destruct (key_q f); [reflexivity |].
  destruct (prints_no_socket (frame_snapshot_trace f)) as [_ Hq].
  destruct (outcome (frame_snapshot bd cam f)) as [snap | e]; [| exact Hq].
  destruct (publish_socket_events conn f snap) as [_ Hc]. simpl in Hc.
  cbv zeta.
  destruct (outcome (try_except_BrokenPipeError _ _)); unfold trace at 1;
    cbn [fst]; rewrite ?sent_app, Hq, Hc; reflexivity.
Qed.

Lemma frame_snapshot_Ok (f : frame_input) (snap : dict position) :
  outcome (frame_snapshot bd cam f) = Ok snap ->
  exists LEDs, outcome (detect_LEDs cam (contours f)) = Ok LEDs
               /\ outcome (assemble bd cam LEDs) = Ok snap.
Proof. intros H. unfold frame_snapshot in H. bind_inv H. eauto. Qed.

(** No iteration opens or closes a connection. *)
Lemma frame_body_keeps_connection (conn : connection) (mark : Q)
    (f : frame_input) :
  Forall (fun e => keeps_connection e = true)
         (trace (frame_body bd cam conn mark f)).
Proof.
  apply Forall_forall. intros e Hin.
  destruct (keeps_connection e) eqn:E; [reflexivity | exfalso].
  assert (Hs : In e (socket_events (trace (frame_body bd cam conn mark f)))).
  { apply filter_In. split; [assumption |]. now destruct e. }
  rewrite frame_body_socket_events in Hs.
  destruct (key_q f); [easy |].
  destruct (outcome (frame_snapshot bd cam f)) as [snap | e0]; [| easy].
  unfold cycle in Hs.
  destruct (send_result f); simpl in Hs;
    repeat (destruct Hs as [<- | Hs]; [discriminate |]); easy.
Qed.

(** An iteration whose send or read raises [BrokenPipeError] prints the
    message of the handler and ends like any other. *)
Lemma frame_body_broken_pipe (conn : connection) (mark : Q) (f : frame_input)
    (snap : dict position) :
  key_q f = false ->
  outcome (frame_snapshot bd cam f) = Ok snap ->
  broken_pipe f ->
  outcome (frame_body bd cam conn mark f) = Ok (Continue mark)
  /\ In (EvPrint MsgClientClosed) (trace (frame_body bd cam conn mark f)).
Proof.
  intros Hq Hsnap Hgone. rewrite frame_body_eq, Hq, Hsnap. unfold publish.
  destruct Hgone as [-> | [-> ->]]; simpl; (split; [reflexivity |]);
    unfold trace; simpl; apply in_or_app; right; simpl; tauto.
Qed.

(** An iteration whose send and read come back ends at the end of the
    body. *)
Lemma frame_body_acknowledged (conn : connection) (mark : Q)
    (f : frame_input) (snap : dict position) :
  key_q f = false ->
  outcome (frame_snapshot bd cam f) = Ok snap ->
  send_result f = Ok tt -> recv_result f = Ok tt ->
  outcome (frame_body bd cam conn mark f) = Ok (Continue mark).
Proof.
  intros Hq Hsnap Hs Hr. rewrite frame_body_eq, Hq, Hsnap. unfold publish.
  now rewrite Hs, Hr.
Qed.

(** The loop runs the iterations one after the other: what it does for the
    frames after [f] comes after all that it does for [f]. *)
Lemma main_loop_cons_trace (conn : connection) (mark : Q) (f : frame_input)
    (frames : list frame_input) :
  trace (main_loop bd cam conn mark (f :: frames))
  = trace (frame_body bd cam conn mark f)
    ++ match outcome (frame_body bd cam conn mark f) with
       | Ok (Continue mark') => trace (main_loop bd cam conn mark' frames)
       | _ => []
       end.
Proof.
  simpl. rewrite trace_bind.
  destruct (outcome (frame_body bd cam conn mark f)) as [[| mark'] | e];
    reflexivity.
Qed.

Lemma main_loop_cons_outcome (conn : connection) (mark : Q) (f : frame_input)
    (frames : list frame_input) :
  outcome (main_loop bd cam conn mark (f :: frames))
  = match outcome (frame_body bd cam conn mark f) with
    | Ok Break => Ok Stopped
    | Ok (Continue mark') => outcome (main_loop bd cam conn mark' frames)
    | Raise e => Raise e
    end.
Proof.
  simpl. rewrite outcome_bind.
  destruct (outcome (frame_body bd cam conn mark f)) as [[| mark'] | e];
    reflexivity.
Qed.

(** A run that is still going after the frames [history] goes on with the
    frames that follow. *)
Lemma main_loop_app (conn : connection) (history frames : list frame_input) :
  forall (mark mark' : Q),
    outcome (main_loop bd cam conn mark history) = Ok (Running mark') ->
    trace (main_loop bd cam conn mark (history ++ frames))
    = trace (main_loop bd cam conn mark history)
      ++ trace (main_loop bd cam conn mark' frames)
    /\ outcome (main_loop bd cam conn mark (history ++ frames))
       = outcome (main_loop bd cam conn mark' frames).
Proof.
  induction history as [| f history IH]; intros mark mark' H.
  - simpl in H. injection H as <-. split; reflexivity.
  - rewrite main_loop_cons_outcome in H.
    change ((f :: history) ++ frames) with (f :: (history ++ frames)).
    rewrite !main_loop_cons_trace, main_loop_cons_outcome.
    destruct (outcome (frame_body bd cam conn mark f)) as [[| m] | e];
      try discriminate.
    destruct (IH m mark' H) as [-> ->]. now rewrite app_assoc.
Qed.

(** The loop neither opens nor closes a connection. *)
Lemma main_loop_keeps_connection (conn : connection)
    (frames : list frame_input) :
  forall mark,
    Forall (fun e => keeps_connection e = true)
           (trace (main_loop bd cam conn mark frames)).
Proof.
  induction frames as [| f frames IH]; intros mark; [constructor |].
  rewrite main_loop_cons_trace. apply Forall_app; split.
  - apply frame_body_keeps_connection.
  - destruct (outcome (frame_body bd cam conn mark f)) as [[| m] | e];
      [constructor | apply IH | constructor].
Qed.

(** Every packet the loop sends is a snapshot: its first key is the
    camera. *)
Lemma main_loop_sent (conn : connection) (frames : list frame_input) :
  forall mark,
    Forall (fun data => first_key data = Some "CAM"%string)
           (sent (trace (main_loop bd cam conn mark frames))).
Proof.
  induction frames as [| f frames IH]; intros mark; [constructor |].
  rewrite main_loop_cons_trace, sent_app. apply Forall_app; split.
  - rewrite frame_body_sent. destruct (key_q f); [constructor |].
    destruct (outcome (frame_snapshot bd cam f)) as [snap | e] eqn:E;
      [| constructor].
    apply frame_snapshot_Ok in E. destruct E as (LEDs & _ & E).
    apply assemble_Ok in E. destruct E as (groups & _ & Hkeys & _).
    repeat constructor. eapply first_key_json_of_positions; eauto.
  - destruct (outcome (frame_body bd cam conn mark f)) as [[| m] | e];
      [constructor | apply IH | constructor].
Qed.

Lemma starts_with_recv_app (tr1 tr2 : list event) :
  starts_with_recv tr1 = false -> starts_with_recv tr2 = false ->
  starts_with_recv (tr1 ++ tr2) = false.
Proof. destruct tr1 as [| [] tr1]; simpl; auto. Qed.

(** On the socket, the loop never starts with a read. *)
Lemma main_loop_starts_with_send (conn : connection)
    (frames : list frame_input) :
  forall mark,
    starts_with_recv (socket_events (trace (main_loop bd cam conn mark frames)))
    = false.
Proof.
  induction frames as [| f frames IH]; intros mark; [reflexivity |].
  rewrite main_loop_cons_trace, socket_events_app.
  apply starts_with_recv_app.
  - rewrite frame_body_socket_events. destruct (key_q f); [reflexivity |].
    destruct (outcome (frame_snapshot bd cam f)); [| reflexivity].
    unfold cycle. destruct (send_result f); reflexivity.
  - destruct (outcome (frame_body bd cam conn mark f)) as [[| m] | e];
      [reflexivity | apply IH | reflexivity].
Qed.

(** [main]: the loop, and the release of the socket, of the window and of
    the camera once the loop is left. *)
Lemma main_eq (conn : connection) (start : Q) (frames : list frame_input) :
  main bd cam conn start frames
  = match outcome (main_loop bd cam conn start frames) with
    | Ok Stopped =>
        (trace (main_loop bd cam conn start frames)
         ++ [EvClose conn; EvPrint MsgSocketClosed; EvDestroyAllWindows;
             EvRelease],
         Ok Stopped)
    | other => (trace (main_loop bd cam conn start frames), other)
    end.
Proof.
  unfold main, record, RUN_SERVER, DISPLAY. simpl.
  destruct (main_loop bd cam conn start frames) as [tr [[| m] | e]];
    simpl; now rewrite ?app_nil_r.
Qed.

(** The script: the start of the server, then [main] if the first packet
    went out. *)
Lemma program_eq (env : session_env) (frames : list frame_input) :
  let conn := accepted env in
  let opening := [EvPrint MsgStartingServer; EvListen port;
                  EvPrint MsgListening; EvAccept conn; EvPrint MsgAccepting;
                  EvSend conn configDataPacket] in
  program bd cam env frames
  = match config_send_result env with
    | Ok _ => (opening ++ trace (main bd cam conn (start env) frames),
               outcome (main bd cam conn (start env) frames))
    | Raise e => (opening, Raise e)
    end.
Proof.
  unfold program, RUN_SERVER, start_server. simpl.
  destruct (config_send_result env) as [[] | e]; simpl; [| reflexivity].
  destruct (main bd cam (accepted env) (start env) frames); reflexivity.
Qed.

End Traces.

(** ** Clustering *)

Section Clustering.

Import BotDetectorSpec.

Lemma partition_concat {A : Type} (f : list A -> bool) (gs hit miss : list (list A)) :
  partition f gs = (hit, miss) ->
  Permutation (concat hit ++ concat miss) (concat gs).
Proof.
  revert hit miss. induction gs as [| g gs IH]; intros hit miss H; simpl in H.
  - injection H as <- <-. constructor.
  - destruct (partition f gs) as [hit' miss'].
    specialize (IH hit' miss' eq_refl).
    destruct (f g); injection H as <- <-; simpl.
    + rewrite <- app_assoc. now apply Permutation_app_head.
    + rewrite <- IH. apply Permutation_app_swap_app.
Qed.

(** The groups hold the points, each as often as the input does. *)
Lemma groupNearbyPoints_perm (points : list point) (radius : Q) :
  Permutation (concat (groupNearbyPoints points radius)) points.
Proof.
  induction points as [| p points IH]; simpl; [constructor |].
  destruct (partition (touches radius p) (groupNearbyPoints points radius))
    as [hit miss] eqn:E.
  change (concat ((p :: concat hit) :: miss))
    with (p :: (concat hit ++ concat miss)).
  constructor. now rewrite (partition_concat _ _ E).
Qed.

(** No group is empty. *)
Lemma groupNearbyPoints_nonempty (points : list point) (radius : Q) :
  Forall (fun g => g <> []) (groupNearbyPoints points radius).
Proof.
  induction points as [| p points IH]; simpl; [constructor |].
  destruct (partition (touches radius p) (groupNearbyPoints points radius))
    as [hit miss] eqn:E.
  constructor; [discriminate |].
  rewrite Forall_forall in *. intros g Hg. apply IH.
  apply (elements_in_partition _ _ E). now right.
Qed.

Lemma NoDup_app_disjoint {A : Type} (l1 l2 : list A) (x : A) :
  NoDup (l1 ++ l2) -> In x l1 -> ~ In x l2.
Proof.
  induction l1 as [| a l1 IH]; simpl; intros Hnd Hin Hin2; [easy |].
  inversion Hnd as [| ? ? Ha Hnd']; subst.
  destruct Hin as [-> | Hin].
  - apply Ha. apply in_or_app; now right.
  - now apply (IH Hnd').
Qed.

Lemma NoDup_concat_disjoint (gs : list group) :
  NoDup (concat gs) -> pairwise_disjoint gs.
Proof.
  induction gs as [| g gs IH]; intros Hnd i j g1 g2 p Hij Hi Hj Hp1 Hp2.
  - destruct i; discriminate.
  - simpl in Hnd. destruct i as [| i], j as [| j]; simpl in Hi, Hj.
    + congruence.
    + injection Hi as ->. apply nth_error_In in Hj.
      apply (NoDup_app_disjoint _ _ p Hnd Hp1).
      apply in_concat. eauto.
    + injection Hj as ->. apply nth_error_In in Hi.
      apply (NoDup_app_disjoint _ _ p Hnd Hp2).
      apply in_concat. eauto.
    + apply NoDup_app_remove_l in Hnd.
      apply (IH Hnd i j g1 g2 p); auto.
Qed.

(** *** The groups are the classes of points linked by chains *)

Lemma near_sym (radius : Q) (p q : point) : near radius p q = near radius q p.
Proof.
  unfold near. f_equal. apply Qleb_comp; [| reflexivity].
  unfold dist2. ring.
Qed.

Lemma linked_In (radius : Q) (points : list point) (p q : point) :
  linked radius points p q -> In p points /\ In q points.
Proof. induction 1; tauto. Qed.

Lemma linked_trans (radius : Q) (points : list point) (p q r : point) :
  linked radius points p q -> linked radius points q r ->
  linked radius points p r.
Proof.
  induction 1 as [p Hp | p q' r' Hp Hnear _ IH]; intros Hr; [exact Hr |].
  eapply linked_next; eauto.
Qed.

Lemma linked_sym (radius : Q) (points : list point) (p q : point) :
  linked radius points p q -> linked radius points q p.
Proof.
  induction 1 as [p Hp | p q r Hp Hnear Hqr IH]; [now constructor |].
  apply (linked_trans IH).
  apply linked_next with p; [apply (linked_In Hqr) | | now constructor].
  now rewrite near_sym.
Qed.

Lemma linked_weaken (radius : Q) (points points' : list point) (p q : point) :
  incl points points' ->
  linked radius points p q -> linked radius points' p q.
Proof.
  intros Hincl. induction 1; [constructor | eapply linked_next]; eauto.
Qed.

Lemma partition_hit {A : Type} (f : A -> bool) (l hit miss : list A) (x : A) :
  partition f l = (hit, miss) -> In x hit <-> In x l /\ f x = true.
Proof.
  rewrite partition_as_filter. intros [= <- _]. apply filter_In.
Qed.

Section Step.

Variable radius : Q.
Variable a : point.
Variable points : list point.
Variables hit miss : list group.

Hypothesis Hpart :
  partition (touches radius a) (groupNearbyPoints points radius) = (hit, miss).

(** A group of the points that follow [a] goes into the group of [a], or
    stays as it is. *)
Lemma same_group_step (p q : point) :
  same_group (groupNearbyPoints points radius) p q ->
  same_group ((a :: concat hit) :: miss) p q.
Proof.
  intros (g & Hg & Hp & Hq).
  apply (elements_in_partition _ _ Hpart) in Hg. destruct Hg as [Hg | Hg].
  - exists (a :: concat hit). split; [now left |].
    split; right; apply in_concat; eauto.
  - exists g. split; [now right | tauto].
Qed.

(** A point at most [radius] from [a] is in the group of [a]. *)
Lemma near_joins (q : point) :
  In q points -> near radius a q = true -> In q (a :: concat hit).
Proof.
  intros Hq Hnear. right.
  apply (Permutation_in q (Permutation_sym (groupNearbyPoints_perm _ radius)))
    in Hq.
  apply in_concat in Hq. destruct Hq as (g & Hg & Hq).
  apply in_concat. exists g. split; [| exact Hq].
  apply (partition_hit _ _ g Hpart). split; [exact Hg |].
  apply existsb_exists. eauto.
Qed.

End Step.

(** Two points of the input at most [radius] apart are in the same
    group. *)
Lemma near_same_group (radius : Q) (points : list point) (p q : point) :
  In p points -> In q points -> near radius p q = true ->
  same_group (groupNearbyPoints points radius) p q.
Proof.
  induction points as [| a points IH]; intros Hp Hq Hnear; [easy |].
  simpl.
  destruct (partition (touches radius a) (groupNearbyPoints points radius))
    as [hit miss] eqn:E.
  destruct Hp as [<- | Hp], Hq as [<- | Hq].
  - exists (a :: concat hit). simpl; tauto.
  - exists (a :: concat hit). split; [now left | split; [now left |]].
    eapply near_joins; eauto.
  - exists (a :: concat hit). split; [now left | split; [| now left]].
    eapply near_joins; eauto. now rewrite near_sym.
  - apply (@same_group_step radius a points hit miss E). now apply IH.
Qed.

(** Two points of the same group are linked by a chain. *)
Lemma same_group_linked (radius : Q) (points : list point) (p q : point) :
  same_group (groupNearbyPoints points radius) p q ->
  linked radius points p q.
Proof.
  revert p q. induction points as [| a points IH]; intros p q (g & Hg & Hp & Hq);
    [easy |].
  simpl in Hg.
  destruct (partition (touches radius a) (groupNearbyPoints points radius))
    as [hit miss] eqn:E.
  assert (Hw : forall x y, linked radius points x y ->
                           linked radius (a :: points) x y)
    by (intros x y; apply linked_weaken; now right).
  assert (Ha : forall x, In x (a :: concat hit) ->
                         linked radius (a :: points) a x).
  { intros x [<- | Hx]; [constructor; now left |].
    apply in_concat in Hx. destruct Hx as (h & Hh & Hx).
    apply (partition_hit _ _ h E) in Hh. destruct Hh as [Hh Htouch].
    apply existsb_exists in Htouch. destruct Htouch as (y & Hy & Hnear).
    apply linked_next with y; [now left | exact Hnear |].
    apply Hw, IH. exists h. tauto. }
  destruct Hg as [<- | Hg].
  - apply linked_trans with a; [apply linked_sym |]; now apply Ha.
  - apply Hw, IH. exists g. split; [| tauto].
    apply (elements_in_partition _ _ E). now right.
Qed.

Lemma same_group_trans (gs : list group) (p q r : point) :
  pairwise_disjoint gs ->
  same_group gs p q -> same_group gs q r -> same_group gs p r.
Proof.
  intros Hdis (g1 & Hg1 & Hp & Hq1) (g2 & Hg2 & Hq2 & Hr).
  destruct (In_nth_error _ _ Hg1) as [i Hi].
  destruct (In_nth_error _ _ Hg2) as [j Hj].
  destruct (Nat.eq_dec i j) as [-> | Hij].
  - exists g1. assert (g1 = g2) by congruence. subst g2. tauto.
  - exfalso. exact (Hdis i j g1 g2 q Hij Hi Hj Hq1 Hq2).
Qed.

(** Two points linked by a chain are in the same group. *)
Lemma linked_same_group (radius : Q) (points : list point) (p q : point) :
  NoDup points ->
  linked radius points p q ->
  same_group (groupNearbyPoints points radius) p q.
Proof.
  intros Hnd.
  assert (Hdis : pairwise_disjoint (groupNearbyPoints points radius)).
  { apply NoDup_concat_disjoint.
    apply (Permutation_NoDup
             (Permutation_sym (groupNearbyPoints_perm points radius)) Hnd). }
  induction 1 as [p Hp | p q r Hp Hnear Hqr IH].
  - apply (Permutation_in p
             (Permutation_sym (groupNearbyPoints_perm points radius))) in Hp.
    apply in_concat in Hp. destruct Hp as (g & Hg & Hp). exists g. tauto.
  - apply same_group_trans with q; [exact Hdis | | exact IH].
    apply near_same_group; [exact Hp | apply (linked_In Hqr) | exact Hnear].
Qed.

(** The clustering of the design document: for distinct points, two points
    are in the same group exactly when a chain of points, each at most
    [radius] from the next, links them. *)
Lemma groupNearbyPoints_linked (radius : Q) (points : list point)
    (p q : point) :
  NoDup points ->
  same_group (groupNearbyPoints points radius) p q
  <-> linked radius points p q.
Proof.
  intros Hnd. split; [apply same_group_linked | now apply linked_same_group].
Qed.

End Clustering.

(** * The claims of the design document *)

(** ** The snapshot of a frame *)

(** C3.  A frame without points: nothing is detected, and the assembly
    returns, without raising and without calling the catalog or the scoring
    function, the dictionary in which the camera has its position and every
    bot of [bots_in_play] is [None]. *)
Theorem no_points_all_unresolved (pattern : Type)
    (getPattern : string -> result pattern)
    (detectShape : group -> pattern -> result pyfloat)
    (cam : OverheadCamera) :
  let bd := BotDetectorSpec.botDetector getPattern detectShape in
  detect_LEDs cam [] = ([], Ok [])
  /\ assemble bd cam []
     = ([], Ok (("CAM"%string, camera_position cam)
                 :: map (fun b => (b, None)) bots_in_play)).
Proof. split; reflexivity. Qed.

(** C10.  Every dictionary the assembly returns has the six keys CAM, X, Y,
    STAIR, H, L, once each and in this order, and so has the JSON object
    made of it. *)
Theorem snapshot_keys (bd : BotDetector) (cam : OverheadCamera)
    (LEDs : list point) (snap : dict position) :
  outcome (assemble bd cam LEDs) = Ok snap ->
  keys snap = ["CAM"; "X"; "Y"; "STAIR"; "H"; "L"]%string
  /\ length snap = 6%nat
  /\ exists members,
       json_of_positions snap = JObj members
       /\ map fst members = ["CAM"; "X"; "Y"; "STAIR"; "H"; "L"]%string.
Proof.
  intros H. apply assemble_Ok in H. destruct H as (groups & _ & Hkeys & _).
  split; [exact Hkeys | split].
  - unfold keys in Hkeys. rewrite <- (length_map fst), Hkeys. reflexivity.
  - eexists. split; [reflexivity |].
    now rewrite keys_json_of_positions_aux.
Qed.

Lemma snapshot_keys_witness :
  outcome (assemble Sample.bd Sample.cam Sample.LEDs) = Ok Sample.snapshot
  /\ keys Sample.snapshot = ["CAM"; "X"; "Y"; "STAIR"; "H"; "L"]%string.
Proof.
  assert (H : outcome (assemble Sample.bd Sample.cam Sample.LEDs)
              = Ok Sample.snapshot) by reflexivity.
  split; [exact H | exact (proj1 (snapshot_keys _ _ _ H))].
Defined.

(** C6.  The snapshot of every frame has the entry CAM, whose value is
    [(x_offset + FIELD_LENGTH, y_offset + FIELD_WIDTH)]: the same for
    every frame, whatever its contours are and whatever
    [pixelsToCartesian] makes of them. *)
Theorem camera_entry_fixed (bd : BotDetector) (cam : OverheadCamera)
    (f : frame_input) (snap : dict position) :
  outcome (frame_snapshot bd cam f) = Ok snap ->
  dict_get "CAM" snap
  = Some (Some (x_offset cam + FIELD_LENGTH cam,
                y_offset cam + FIELD_WIDTH cam)).
Proof.
  intros H. apply frame_snapshot_Ok in H. destruct H as (LEDs & _ & H).
  apply assemble_Ok in H.
  destruct H as (groups & _ & _ & Hcam & _). exact Hcam.
Qed.

Lemma camera_entry_fixed_witness :
  outcome (frame_snapshot Sample.bd Sample.cam Sample.frame)
  = Ok Sample.snapshot
  /\ dict_get "CAM" Sample.snapshot = Some (Some (0 + 150, 0 + 75)).
Proof.
  assert (H : outcome (frame_snapshot Sample.bd Sample.cam Sample.frame)
              = Ok Sample.snapshot) by reflexivity.
  split; [exact H | exact (camera_entry_fixed _ _ _ H)].
Defined.

(** C4.  In the dictionary the assembly returns, the entry of each bot of
    [bots_in_play], taken in that order, is the centre of the best match of
    that bot alone over the whole list of groups: a non-empty group whose
    score no non-empty group beats, or no group if no score is below
    infinity.  Nothing removes a group once it is selected: when the frame
    has one group only, non-empty and scored below infinity for every bot,
    all the bots get the centre of that same group. *)
Theorem bots_matched_independently (bd : BotDetector) (cam : OverheadCamera)
    (LEDs : list point) (snap : dict position) :
  outcome (assemble bd cam LEDs) = Ok snap ->
  exists groups,
    groupNearbyPoints bd LEDs 1 = Ok groups
    /\ keys snap = "CAM"%string :: bots_in_play
    /\ Forall (fun b =>
         exists best pos,
           outcome (best_match bd b groups) = Ok best
           /\ best_of bd b groups best
           /\ groupCenter bd (fst best) = Ok pos
           /\ dict_get b snap = Some pos) bots_in_play
    /\ forall g,
         groups = [g] -> g <> [] ->
         (forall b s, In b bots_in_play -> scored bd b g s ->
                      flt s PInf = true) ->
         Forall (fun b =>
           exists pos, groupCenter bd (Some g) = Ok pos
                       /\ dict_get b snap = Some pos) bots_in_play.
Proof.
  intros H. apply assemble_Ok in H.
  destruct H as (groups & Hg & Hkeys & _ & Hbots).
  exists groups. split; [exact Hg | split; [exact Hkeys | split]].
  - apply Forall_forall. intros b Hb.
    destruct (Hbots b Hb) as (best & pos & Hbest & Hpos & Hget).
    exists best, pos. auto using best_match_best_of.
  - intros g -> Hne Hfin. apply Forall_forall. intros b Hb.
    destruct (Hbots b Hb) as (best & pos & Hbest & Hpos & Hget).
    pose proof (best_match_best_of _ _ _ Hbest) as (_ & _ & Hall).
    destruct (Hall g (or_introl eq_refl) Hne) as [s Hs].
    destruct (@best_match_finds bd b [g] best g s Hbest (or_introl eq_refl)
                Hne Hs (Hfin b s Hb Hs)) as (g0 & Hg0 & [<- | []] & _).
    exists pos. rewrite <- Hg0. auto.
Qed.

Lemma bots_matched_independently_witness :
  outcome (assemble Sample.bd Sample.cam Sample.LEDs) = Ok Sample.snapshot
  /\ exists groups,
       groupNearbyPoints Sample.bd Sample.LEDs 1 = Ok groups
       /\ keys Sample.snapshot = "CAM"%string :: bots_in_play.
Proof.
  assert (H : outcome (assemble Sample.bd Sample.cam Sample.LEDs)
              = Ok Sample.snapshot) by reflexivity.
  split; [exact H |].
  destruct (bots_matched_independently _ _ _ H) as (groups & Hg & Hk & _).
  exists groups. split; assumption.
Defined.

(** The sample frame has two groups, and the five bots all select the
    first one. *)
Example sample_same_group_for_all :
  BotDetectorSpec.groupNearbyPoints Sample.LEDs 1
  = [[(1, 1); (2, 1)]; [(9, 6)]]
  /\ map (fun b => outcome (best_match Sample.bd b
                              [[(1, 1); (2, 1)]; [(9, 6)]]))
         bots_in_play
     = [Ok (Some [(1, 1); (2, 1)], PFin 3);
        Ok (Some [(1, 1); (2, 1)], PFin 1);
        Ok (Some [(1, 1); (2, 1)], PFin 2);
        Ok (Some [(1, 1); (2, 1)], PFin 5);
        Ok (Some [(1, 1); (2, 1)], PFin 0)].
Proof. split; reflexivity. Qed.

(** C9.  With the clustering and the centre of the design document, and a
    scoring function that returns finite scores: when the frame has a
    non-empty group, the inner loop selects a non-empty group for every bot
    of [bots_in_play] and the entry of the bot is a point; so an entry is
    [None] only when no group of the frame is non-empty. *)
Theorem no_score_threshold (pattern : Type)
    (getPattern : string -> result pattern)
    (detectShape : group -> pattern -> result pyfloat)
    (cam : OverheadCamera) (LEDs : list point) (snap : dict position) :
  let bd := BotDetectorSpec.botDetector getPattern detectShape in
  let groups := BotDetectorSpec.groupNearbyPoints LEDs 1 in
  (forall g pat s, detectShape g pat = Ok s -> is_finite s = true) ->
  outcome (assemble bd cam LEDs) = Ok snap ->
  ((exists g, In g groups /\ g <> []) ->
   Forall (fun b =>
     exists best g p,
       outcome (best_match bd b groups) = Ok best
       /\ fst best = Some g /\ In g groups /\ g <> []
       /\ dict_get b snap = Some (Some p)) bots_in_play)
  /\ ((exists b, In b bots_in_play /\ dict_get b snap = Some None) ->
      forall g, In g groups -> g = []).
Proof.
  intros bd groups Hfin H.
  assert (Hfirst : (exists g, In g groups /\ g <> []) ->
            Forall (fun b =>
              exists best g p,
                outcome (best_match bd b groups) = Ok best
                /\ fst best = Some g /\ In g groups /\ g <> []
                /\ dict_get b snap = Some (Some p)) bots_in_play).
  { intros (g & Hin & Hne). apply assemble_Ok in H.
    destruct H as (groups' & Hg & _ & _ & Hbots).
    simpl in Hg. injection Hg as <-. fold groups in Hbots.
    apply Forall_forall. intros b Hb.
    destruct (Hbots b Hb) as (best & pos & Hbest & Hpos & Hget).
    pose proof (best_match_best_of _ _ _ Hbest) as (_ & _ & Hall).
    destruct (Hall g Hin Hne) as [s Hs].
    assert (Hlt : flt s PInf = true).
    { destruct Hs as (pat & _ & Hs). apply is_finite_below_inf.
      exact (Hfin g pat s Hs). }
    destruct (@best_match_finds bd b groups best g s Hbest Hin Hne Hs Hlt)
      as (g0 & Hg0 & Hin0 & Hne0).
    rewrite Hg0 in Hpos. simpl in Hpos. injection Hpos as <-.
    destruct g0 as [| p0 g0]; [congruence |].
    exists best, (p0 :: g0). eexists. repeat split; eauto. }
  split; [exact Hfirst |].
  intros (b & Hb & Hnone) g Hin.
  destruct g as [| p g]; [reflexivity | exfalso].
  assert (Hex : exists g0, In g0 groups /\ g0 <> [])
    by (exists (p :: g); split; [assumption | discriminate]).
  specialize (Hfirst Hex). rewrite Forall_forall in Hfirst.
  destruct (Hfirst b Hb) as (best & g0 & p0 & _ & _ & _ & _ & Hget).
  congruence.
Qed.

Lemma no_score_threshold_witness :
  (forall g pat s, Sample.detectShape g pat = Ok s -> is_finite s = true)
  /\ outcome (assemble Sample.bd Sample.cam Sample.LEDs) = Ok Sample.snapshot
  /\ ((exists b, In b bots_in_play
                 /\ dict_get b Sample.snapshot = Some None) ->
      forall g, In g (BotDetectorSpec.groupNearbyPoints Sample.LEDs 1) ->
                g = []).
Proof.
  assert (Hfin : forall g pat s,
             Sample.detectShape g pat = Ok s -> is_finite s = true).
  { intros g n s [= <-]. reflexivity. }
  assert (H : outcome (assemble Sample.bd Sample.cam Sample.LEDs)
              = Ok Sample.snapshot) by reflexivity.
  split; [exact Hfin | split; [exact H |]].
  exact (proj2 (no_score_threshold Sample.getPattern Sample.detectShape
                  Sample.cam Sample.LEDs Hfin H)).
Defined.

(** ** Clustering *)

(** C5.  For every list of distinct points and every radius, the groups of
    [groupNearbyPoints] are a partition of the points: a point is in the
    input exactly when it is in some group, two groups share no point, no
    group is empty, and the groups together hold the points of the input
    and nothing else; no points give no groups. *)
Theorem groupNearbyPoints_partition (points : list point) (radius : Q) :
  NoDup points ->
  let groups := BotDetectorSpec.groupNearbyPoints points radius in
  (forall p, In p points <-> exists g, In g groups /\ In p g)
  /\ BotDetectorSpec.pairwise_disjoint groups
  /\ Forall (fun g => g <> []) groups
  /\ Permutation (concat groups) points
  /\ BotDetectorSpec.groupNearbyPoints [] radius = [].
Proof.
  intros Hnd groups.
  pose proof (groupNearbyPoints_perm points radius) as Hperm.
  fold groups in Hperm.
  split; [| split; [| split; [| split]]].
  - intros p. split; intros Hp.
    + apply in_concat. apply (Permutation_in p (Permutation_sym Hperm) Hp).
    + apply in_concat in Hp. apply (Permutation_in p Hperm Hp).
  - apply NoDup_concat_disjoint.
    apply (Permutation_NoDup (Permutation_sym Hperm) Hnd).
  - apply groupNearbyPoints_nonempty.
  - exact Hperm.
  - reflexivity.
Qed.

Lemma groupNearbyPoints_partition_witness :
  NoDup Sample.LEDs
  /\ Permutation (concat (BotDetectorSpec.groupNearbyPoints Sample.LEDs 1))
                 Sample.LEDs.
Proof.
  assert (H : NoDup Sample.LEDs).
  { unfold Sample.LEDs. repeat constructor; simpl; intuition discriminate. }
  split; [exact H |].
  exact (proj1 (proj2 (proj2 (proj2 (groupNearbyPoints_partition 1 H))))).
Defined.

(** The clusters of the design document's scenario A: two points half a
    unit apart and a third one fifty units away. *)
Example scenario_A :
  BotDetectorSpec.groupNearbyPoints [(0, 0); (1 # 2, 0); (50, 0)] 1
  = [[(0, 0); (1 # 2, 0)]; [(50, 0)]].
Proof. reflexivity. Qed.

(** ** The main loop and the socket *)

(** C8.  Take two runs of the loop that are still going, after any frames
    and with any value of [mark], and give each a frame with the same
    contours and the same key state.  The snapshot of the two frames is the
    same, and so are the packets the two iterations send, which come after
    everything the earlier frames did. *)
Theorem snapshot_of_frame_only (bd : BotDetector) (cam : OverheadCamera)
    (conn1 conn2 : connection) (start1 start2 mark1 mark2 : Q)
    (history1 history2 : list frame_input) (f1 f2 : frame_input) :
  outcome (main_loop bd cam conn1 start1 history1) = Ok (Running mark1) ->
  outcome (main_loop bd cam conn2 start2 history2) = Ok (Running mark2) ->
  contours f1 = contours f2 ->
  key_q f1 = key_q f2 ->
  frame_snapshot bd cam f1 = frame_snapshot bd cam f2
  /\ trace (main_loop bd cam conn1 start1 (history1 ++ [f1]))
     = trace (main_loop bd cam conn1 start1 history1)
       ++ trace (frame_body bd cam conn1 mark1 f1)
  /\ trace (main_loop bd cam conn2 start2 (history2 ++ [f2]))
     = trace (main_loop bd cam conn2 start2 history2)
       ++ trace (frame_body bd cam conn2 mark2 f2)
  /\ sent (trace (frame_body bd cam conn1 mark1 f1))
     = sent (trace (frame_body bd cam conn2 mark2 f2)).
Proof.
  intros H1 H2 Hc Hq.
  assert (Hsnap : frame_snapshot bd cam f1 = frame_snapshot bd cam f2)
    by (unfold frame_snapshot; now rewrite Hc).
  assert (Hlast : forall conn mark f,
             trace (main_loop bd cam conn mark [f])
             = trace (frame_body bd cam conn mark f)).
  { intros conn mark f. rewrite main_loop_cons_trace.
    destruct (outcome (frame_body bd cam conn mark f)) as [[| m] | e];
      simpl; apply app_nil_r. }
  split; [exact Hsnap | split; [| split]].
  - destruct (main_loop_app bd cam conn1 history1 [f1] start1 H1) as [-> _].
    now rewrite Hlast.
  - destruct (main_loop_app bd cam conn2 history2 [f2] start2 H2) as [-> _].
    now rewrite Hlast.
  - now rewrite !frame_body_sent, Hsnap, Hq.
Qed.

Lemma snapshot_of_frame_only_witness :
  outcome (main_loop Sample.bd Sample.cam Sample.conn 9 [Sample.frame])
  = Ok (Running 9)
  /\ outcome (main_loop Sample.bd Sample.cam Sample.conn 5 [])
     = Ok (Running 5)
  /\ contours Sample.dark_frame = contours Sample.dark_frame_send_fails
  /\ key_q Sample.dark_frame = key_q Sample.dark_frame_send_fails
  /\ sent (trace (frame_body Sample.bd Sample.cam Sample.conn 9
                    Sample.dark_frame))
     = sent (trace (frame_body Sample.bd Sample.cam Sample.conn 5
                      Sample.dark_frame_send_fails)).
Proof.
  assert (H1 : outcome (main_loop Sample.bd Sample.cam Sample.conn 9
                          [Sample.frame]) = Ok (Running 9)) by reflexivity.
  assert (H2 : outcome (main_loop Sample.bd Sample.cam Sample.conn 5 [])
               = Ok (Running 5)) by reflexivity.
  assert (Hc : contours Sample.dark_frame
               = contours Sample.dark_frame_send_fails) by reflexivity.
  assert (Hq : key_q Sample.dark_frame = key_q Sample.dark_frame_send_fails)
    by reflexivity.
  split; [exact H1 | split; [exact H2 | split; [exact Hc | split; [exact Hq |]]]].
  exact (proj2 (proj2 (proj2
    (@snapshot_of_frame_only Sample.bd Sample.cam Sample.conn Sample.conn
       9 5 9 5 [Sample.frame] [] Sample.dark_frame
       Sample.dark_frame_send_fails H1 H2 Hc Hq)))).
Defined.

(** What the handler of line 284 does achieve.  A frame in which the send
    of the snapshot, or the read of the reply, raises [BrokenPipeError]:
    the iteration prints the message of the handler and ends at the end of
    the body; the run goes on with the frames that follow, on the same
    connection and with nothing in between, and never closes the
    connection or opens another one; and the next frame goes through the
    same send/acknowledge cycle on that connection. *)
Theorem broken_pipe_keeps_session (bd : BotDetector) (cam : OverheadCamera)
    (conn : connection) (mark : Q) (f f' : frame_input)
    (frames : list frame_input) (snap snap' : dict position) :
  key_q f = false ->
  outcome (frame_snapshot bd cam f) = Ok snap ->
  broken_pipe f ->
  key_q f' = false ->
  outcome (frame_snapshot bd cam f') = Ok snap' ->
  In (EvPrint MsgClientClosed) (trace (frame_body bd cam conn mark f))
  /\ outcome (frame_body bd cam conn mark f) = Ok (Continue mark)
  /\ trace (main_loop bd cam conn mark (f :: f' :: frames))
     = trace (frame_body bd cam conn mark f)
       ++ trace (main_loop bd cam conn mark (f' :: frames))
  /\ outcome (main_loop bd cam conn mark (f :: f' :: frames))
     = outcome (main_loop bd cam conn mark (f' :: frames))
  /\ Forall (fun e => keeps_connection e = true)
            (trace (main_loop bd cam conn mark (f :: f' :: frames)))
  /\ socket_events (trace (frame_body bd cam conn mark f'))
     = cycle conn (json_of_positions snap') (send_result f').
Proof.
  intros Hq Hsnap Hgone Hq' Hsnap'.
  destruct (@frame_body_broken_pipe bd cam conn mark f snap Hq Hsnap Hgone)
    as [Hout Hlog].
  split; [exact Hlog | split; [exact Hout | split; [| split; [| split]]]].
  - now rewrite main_loop_cons_trace, Hout.
  - now rewrite main_loop_cons_outcome, Hout.
  - apply main_loop_keeps_connection.
  - now rewrite frame_body_socket_events, Hq', Hsnap'.
Qed.

Lemma broken_pipe_keeps_session_witness :
  key_q Sample.dark_frame_send_fails = false
  /\ outcome (frame_snapshot Sample.bd Sample.cam Sample.dark_frame_send_fails)
     = Ok Sample.dark_snapshot
  /\ broken_pipe Sample.dark_frame_send_fails
  /\ key_q Sample.frame = false
  /\ outcome (frame_snapshot Sample.bd Sample.cam Sample.frame)
     = Ok Sample.snapshot
  /\ outcome (main_loop Sample.bd Sample.cam Sample.conn 9
                [Sample.dark_frame_send_fails; Sample.frame])
     = outcome (main_loop Sample.bd Sample.cam Sample.conn 9 [Sample.frame]).
Proof.
  assert (Hq : key_q Sample.dark_frame_send_fails = false) by reflexivity.
  assert (Hsnap : outcome (frame_snapshot Sample.bd Sample.cam
                             Sample.dark_frame_send_fails)
                  = Ok Sample.dark_snapshot) by reflexivity.
  assert (Hgone : broken_pipe Sample.dark_frame_send_fails) by now left.
  assert (Hq' : key_q Sample.frame = false) by reflexivity.
  assert (Hsnap' : outcome (frame_snapshot Sample.bd Sample.cam Sample.frame)
                   = Ok Sample.snapshot) by reflexivity.
  split; [exact Hq | split; [exact Hsnap | split; [exact Hgone |
    split; [exact Hq' | split; [exact Hsnap' |]]]]].
  exact (proj1 (proj2 (proj2 (proj2
    (@broken_pipe_keeps_session Sample.bd Sample.cam Sample.conn 9
       Sample.dark_frame_send_fails Sample.frame []
       Sample.dark_snapshot Sample.snapshot Hq Hsnap Hgone Hq' Hsnap'))))).
Defined.

(** C7.  On the socket, every run of the script opens with the listen, the
    accept and the send of the configuration packet, which carries the
    frame rate and the packet size; what follows does not start with a
    read.  The configuration packet is the first packet sent, and every
    other packet sent is a snapshot, whose first key is the camera: the
    configuration packet is sent once. *)
Theorem config_packet_first (bd : BotDetector) (cam : OverheadCamera)
    (env : session_env) (frames : list frame_input) :
  exists rest snaps,
    socket_events (trace (program bd cam env frames))
    = [EvListen port; EvAccept (accepted env);
       EvSend (accepted env) configDataPacket] ++ rest
    /\ starts_with_recv rest = false
    /\ sent (trace (program bd cam env frames)) = configDataPacket :: snaps
    /\ Forall (fun data => first_key data = Some "CAM"%string) snaps
    /\ ~ In configDataPacket snaps
    /\ configDataPacket
       = JObj [("FPS"%string, JInt SAVE_FRAME_RATE);
               ("PACKET_SIZE"%string, JInt 1024)].
Proof.
  pose proof (program_eq bd cam env frames) as Hp. cbv zeta in Hp.
  pose proof (main_eq bd cam (accepted env) (start env) frames) as Hm.
  pose proof (main_loop_sent bd cam (accepted env) frames (start env)) as Hs.
  pose proof (main_loop_starts_with_send bd cam (accepted env) frames
                (start env)) as Hr.
  assert (Hnot : forall snaps,
             Forall (fun data => first_key data = Some "CAM"%string) snaps ->
             ~ In configDataPacket snaps).
  { intros snaps HF Hin. rewrite Forall_forall in HF.
    specialize (HF _ Hin). discriminate. }
  set (loop := main_loop bd cam (accepted env) (start env) frames) in *.
  destruct (config_send_result env) as [[] | e].
  - exists (socket_events (trace (main bd cam (accepted env) (start env) frames))),
           (sent (trace (main bd cam (accepted env) (start env) frames))).
    rewrite Hp. unfold trace at 1 3. cbn [fst].
    assert (Hs' : Forall (fun data => first_key data = Some "CAM"%string)
                    (sent (trace (main bd cam (accepted env) (start env) frames)))).
    { rewrite Hm. destruct (outcome loop) as [[| m] | e]; unfold trace at 1;
        cbn [fst]; rewrite ?sent_app; simpl; rewrite ?app_nil_r; exact Hs. }
    repeat split; auto.
    rewrite Hm. destruct (outcome loop) as [[| m] | e]; unfold trace at 1;
      cbn [fst]; try exact Hr.
    rewrite socket_events_app. now apply starts_with_recv_app.
  - exists [], []. rewrite Hp. repeat split; auto.
Qed.

(** The handler is for [BrokenPipeError] only: a send or a read that raises
    anything else ends the iteration, and the run, with that exception. *)
Lemma other_exception_ends_run (bd : BotDetector) (cam : OverheadCamera)
    (conn : connection) (mark : Q) (f : frame_input)
    (frames : list frame_input) (snap : dict position) (name : string) :
  key_q f = false ->
  outcome (frame_snapshot bd cam f) = Ok snap ->
  send_result f = Raise (Exception name)
  \/ (send_result f = Ok tt /\ recv_result f = Raise (Exception name)) ->
  outcome (main_loop bd cam conn mark (f :: frames))
  = Raise (Exception name).
Proof.
  intros Hq Hsnap Hexn.
  rewrite main_loop_cons_outcome, frame_body_eq, Hq, Hsnap. unfold publish.
  destruct Hexn as [-> | [-> ->]]; reflexivity.
Qed.

(** C2 does not hold of the code.  When the client is gone, [conn.send] and
    [conn.recv] may raise [ConnectionResetError], which is no
    [BrokenPipeError]: the handler of line 284 does not catch it.  In a
    run where the send of a frame raises it, or the read of the reply
    does, the message of the handler is not printed, the exception leaves
    [main], and the frame that follows is never sent. *)
Theorem connection_reset_ends_session :
  main Sample.bd Sample.cam Sample.conn 9
    [SampleFaults.frame_reset; Sample.dark_frame]
  = ([EvPrint (MsgSending Sample.dark_packet);
      EvSend Sample.conn Sample.dark_packet],
     Raise (Exception "ConnectionResetError"))
  /\ main Sample.bd Sample.cam Sample.conn 9
       [SampleFaults.frame_reset_on_read; Sample.dark_frame]
     = ([EvPrint (MsgSending Sample.dark_packet);
         EvSend Sample.conn Sample.dark_packet;
         EvRecv Sample.conn PACKET_SIZE],
        Raise (Exception "ConnectionResetError")).
Proof. split; reflexivity. Qed.

(** C1, as stated, fails on a frame whose send raises [BrokenPipeError]:
    the handler takes over before [conn.recv] is reached, so the iteration
    reads no reply, and the next frame is sent right after. *)
Lemma ack_read_skipped_when_send_fails :
  key_q Sample.dark_frame_send_fails = false
  /\ outcome (frame_snapshot Sample.bd Sample.cam Sample.dark_frame_send_fails)
     = Ok Sample.dark_snapshot
  /\ trace (frame_body Sample.bd Sample.cam Sample.conn 9
              Sample.dark_frame_send_fails)
     = [EvPrint (MsgSending Sample.dark_packet);
        EvSend Sample.conn Sample.dark_packet;
        EvPrint MsgClientClosed; EvImshow]
  /\ (forall c n,
        ~ In (EvRecv c n)
             (trace (frame_body Sample.bd Sample.cam Sample.conn 9
                       Sample.dark_frame_send_fails)))
  /\ socket_events
       (trace (main_loop Sample.bd Sample.cam Sample.conn 9
                 [Sample.dark_frame_send_fails; Sample.dark_frame]))
     = [EvSend Sample.conn Sample.dark_packet;
        EvSend Sample.conn Sample.dark_packet;
        EvRecv Sample.conn PACKET_SIZE].
Proof.
  repeat split; try reflexivity.
  intros c n Hin. simpl in Hin. intuition discriminate.
Qed.

(** C1, amended.  In every frame that is processed and whose send comes
    back, the iteration prints and sends the snapshot of the frame and then
    reads [PACKET_SIZE = 1024] bytes from the same connection, before
    anything else happens; these are its only socket events; and all that
    the loop does for the frames that follow comes after them. *)
Theorem ack_read_follows_send (bd : BotDetector) (cam : OverheadCamera)
    (conn : connection) (mark : Q) (f : frame_input)
    (frames : list frame_input) (snap : dict position) :
  key_q f = false ->
  outcome (frame_snapshot bd cam f) = Ok snap ->
  send_result f = Ok tt ->
  let data := json_of_positions snap in
  (exists after,
     trace (frame_body bd cam conn mark f)
     = trace (frame_snapshot bd cam f)
       ++ [EvPrint (MsgSending data); EvSend conn data;
           EvRecv conn PACKET_SIZE] ++ after
     /\ Forall (fun e => is_socket_io e = false) after)
  /\ socket_events (trace (frame_body bd cam conn mark f))
     = [EvSend conn data; EvRecv conn PACKET_SIZE]
  /\ PACKET_SIZE = 1024%Z
  /\ trace (main_loop bd cam conn mark (f :: frames))
     = trace (frame_body bd cam conn mark f)
       ++ match outcome (frame_body bd cam conn mark f) with
          | Ok (Continue mark') => trace (main_loop bd cam conn mark' frames)
          | _ => []
          end.
Proof.
  intros Hq Hsnap Hsend data. split; [| split; [| split]].
  - rewrite frame_body_eq, Hq, Hsnap. unfold publish. rewrite Hsend.
    destruct (recv_result f) as [[] | [| n]]; simpl; unfold trace at 1;
      cbn [fst]; eexists; (split; [reflexivity |]); repeat constructor.
  - now rewrite frame_body_socket_events, Hq, Hsnap, Hsend.
  - reflexivity.
  - apply main_loop_cons_trace.
Qed.

Lemma ack_read_follows_send_witness :
  key_q Sample.frame = false
  /\ outcome (frame_snapshot Sample.bd Sample.cam Sample.frame)
     = Ok Sample.snapshot
  /\ send_result Sample.frame = Ok tt
  /\ socket_events (trace (frame_body Sample.bd Sample.cam Sample.conn 9
                             Sample.frame))
     = [EvSend Sample.conn (json_of_positions Sample.snapshot);
        EvRecv Sample.conn PACKET_SIZE].
Proof.
  assert (Hq : key_q Sample.frame = false) by reflexivity.
  assert (Hsnap : outcome (frame_snapshot Sample.bd Sample.cam Sample.frame)
                  = Ok Sample.snapshot) by reflexivity.
  assert (Hsend : send_result Sample.frame = Ok tt) by reflexivity.
  split; [exact Hq | split; [exact Hsnap | split; [exact Hsend |]]].
  exact (proj1 (proj2 (@ack_read_follows_send Sample.bd Sample.cam
                         Sample.conn 9 Sample.frame [] Sample.snapshot
                         Hq Hsnap Hsend))).
Defined.

(** * Further properties of [main.py] *)

(** ** The detection of the LEDs (lines 213-236) *)

Lemma add_LEDs_appends (cam : OverheadCamera) (cs : list contour) :
  forall acc LEDs,
    outcome (for_each (add_LED cam) cs acc) = Ok LEDs ->
    exists new,
      LEDs = acc ++ new
      /\ Forall2 (fun c p =>
           exists z, pixelsToCartesian cam (fst (centre c)) (snd (centre c))
                     = Ok (fst p, snd p, z))
           (filter is_LED cs) new.
Proof.
  induction cs as [| c cs IH]; intros acc LEDs H.
  - injection H as <-. exists []. split; [now rewrite app_nil_r | constructor].
  - cbn [for_each] in H. bind_inv H. rename a into acc'.
    unfold add_LED in Ha. cbn [filter]. unfold is_LED at 1.
    destruct (negb (Qeq_bool (m00 c) 0) && Qltb 1 (contourArea c)).
    + bind_inv Ha. destruct a as [[x y] z]. injection Ha as <-.
      destruct (IH _ _ H) as (new & -> & Hnew).
      exists ((x, y) :: new). split; [now rewrite <- app_assoc |].
      constructor; [exists z; exact Ha0 | exact Hnew].
    + injection Ha as <-. exact (IH _ _ H).
Qed.

(** X1.  When the detection of the LEDs returns, the list it returns holds,
    in the order of the contours, one point for each contour that has a
    non-zero [m00] and an area above 1: the first two coordinates that
    [pixelsToCartesian] gives for its centre.  The other contours add
    nothing, so there are at most as many LEDs as contours. *)
Theorem detect_LEDs_accepted (cam : OverheadCamera) (cs : list contour)
    (LEDs : list point) :
  outcome (detect_LEDs cam cs) = Ok LEDs ->
  Forall2 (fun c p =>
    exists z, pixelsToCartesian cam (fst (centre c)) (snd (centre c))
              = Ok (fst p, snd p, z))
    (filter is_LED cs) LEDs
  /\ length LEDs = length (filter is_LED cs)
  /\ (length LEDs <= length cs)%nat.
Proof.
  intros H. unfold detect_LEDs in H.
  destruct (add_LEDs_appends _ _ _ H) as (new & -> & Hnew). cbn [app].
  pose proof (Forall2_length Hnew) as Hlen.
  pose proof (filter_length_le is_LED cs) as Hle.
  split; [exact Hnew | split; [exact (eq_sym Hlen) |]].
  apply Nat.le_trans with (length (filter is_LED cs)); [| exact Hle].
  apply Nat.eq_le_incl. exact (eq_sym Hlen).
Qed.

Lemma detect_LEDs_accepted_witness :
  outcome (detect_LEDs Sample.cam (contours Sample.frame)) = Ok Sample.LEDs
  /\ length Sample.LEDs = length (filter is_LED (contours Sample.frame)).
Proof.
  assert (H : outcome (detect_LEDs Sample.cam (contours Sample.frame))
              = Ok Sample.LEDs) by reflexivity.
  split; [exact H | exact (proj1 (proj2 (detect_LEDs_accepted _ _ H)))].
Defined.

(** ** The matching of the bots (lines 253-269) *)

Lemma best_match_skips_empty (bd : BotDetector) (b : string)
    (groups : list group) (best : option group * pyfloat) :
  Forall (fun g => g = []) groups ->
  for_each (match_group bd b) groups best = ([], Ok best).
Proof.
  induction 1 as [| g groups -> _ IH]; [reflexivity |].
  cbn [for_each]. unfold match_group at 1. cbn [length Nat.ltb Nat.leb].
  unfold bind, ret. now rewrite IH.
Qed.

Lemma bind_pure {A B : Type} (a : A) (k : A -> M B) :
  bind ([], Ok a) k = k a.
Proof. unfold bind. now destruct (k a). Qed.

Lemma resolve_bot_skips_empty (bd : BotDetector) (groups : list group)
    (d : dict position) (b : string) (pos : position) :
  Forall (fun g => g = []) groups ->
  groupCenter bd None = Ok pos ->
  resolve_bot bd groups d b = ([], Ok (dict_set b pos d)).
Proof.
  intros Hempty Hpos. unfold resolve_bot, best_match.
  rewrite (best_match_skips_empty bd b (None, PInf) Hempty), bind_pure.
  cbn [fst]. rewrite Hpos. unfold call. now rewrite bind_pure.
Qed.

(** X2.  When every group of the frame is empty, the assembly calls neither
    the catalog nor the scoring function: whatever these would do, it
    prints nothing and gives every bot of [bots_in_play] the value of
    [groupCenter(None)]. *)
Theorem empty_groups_skip_matching (bd : BotDetector) (cam : OverheadCamera)
    (LEDs : list point) (groups : list group) (pos : position) :
  groupNearbyPoints bd LEDs 1 = Ok groups ->
  Forall (fun g => g = []) groups ->
  groupCenter bd None = Ok pos ->
  assemble bd cam LEDs
  = ([], Ok (("CAM"%string, camera_position cam)
              :: map (fun b => (b, pos)) bots_in_play)).
Proof.
  intros Hg Hempty Hpos. unfold assemble. rewrite Hg.
  unfold call. rewrite bind_pure. unfold bots_in_play. cbn [for_each].
  repeat (rewrite (resolve_bot_skips_empty bd _ _ Hempty Hpos), bind_pure).
  reflexivity.
Qed.

Lemma empty_groups_skip_matching_witness :
  groupNearbyPoints Sample.bd [] 1 = Ok []
  /\ Forall (fun g : group => g = []) []
  /\ groupCenter Sample.bd None = Ok None
  /\ assemble Sample.bd Sample.cam []
     = ([], Ok (("CAM"%string, camera_position Sample.cam)
                 :: map (fun b => (b, None)) bots_in_play)).
Proof.
  assert (Hg : groupNearbyPoints Sample.bd [] 1 = Ok []) by reflexivity.
  assert (He : Forall (fun g : group => g = []) []) by constructor.
  assert (Hp : groupCenter Sample.bd None = Ok None) by reflexivity.
  split; [exact Hg | split; [exact He | split; [exact Hp |]]].
  exact (@empty_groups_skip_matching Sample.bd Sample.cam [] [] None Hg He Hp).
Defined.

(** A score below the best so far is below every score that did not beat
    the best so far. *)
Lemma flt_below (s best s' : pyfloat) :
  flt s best = true -> flt s' best = false -> s' <> PNaN ->
  flt s s' = true.
Proof.
  destruct s as [x | | |], best as [z | | |], s' as [y | | |]; simpl;
    try discriminate; try reflexivity; try congruence.
  unfold Qltb. rewrite !negb_true_iff, negb_false_iff.
  intros Hxz Hzy _. apply Qle_bool_iff in Hzy.
  destruct (Qle_bool y x) eqn:E; [| reflexivity].
  apply Qle_bool_iff in E.
  assert (Hzx : Qle_bool z x = true)
    by (apply Qle_bool_iff; eapply Qle_trans; eauto).
  congruence.
Qed.

Lemma match_group_keeps_first (bd : BotDetector) (b : string)
    (seen : list group) (best best' : option group * pyfloat) (g : group) :
  best_of bd b seen best
  /\ (forall g0, fst best = Some g0 ->
       exists pre post,
         seen = pre ++ g0 :: post
         /\ forall g' s', In g' pre -> g' <> [] -> scored bd b g' s' ->
                          s' <> PNaN -> flt (snd best) s' = true) ->
  outcome (match_group bd b best g) = Ok best' ->
  best_of bd b (seen ++ [g]) best'
  /\ (forall g0, fst best' = Some g0 ->
       exists pre post,
         seen ++ [g] = pre ++ g0 :: post
         /\ forall g' s', In g' pre -> g' <> [] -> scored bd b g' s' ->
                          s' <> PNaN -> flt (snd best') s' = true).
Proof.
  intros [Hof Hfirst] H. split; [eapply match_group_keeps; eauto |].
  assert (Hkeep : forall g0, fst best = Some g0 ->
            exists pre post,
              seen ++ [g] = pre ++ g0 :: post
              /\ forall g' s', In g' pre -> g' <> [] -> scored bd b g' s' ->
                               s' <> PNaN -> flt (snd best) s' = true).
  { intros g0 Hg0. destruct (Hfirst g0 Hg0) as (pre & post & -> & Hpre).
    exists pre, (post ++ [g]). split; [| exact Hpre].
    now rewrite <- app_assoc. }
  unfold match_group in H.
  destruct g as [| p g]; cbn [length Nat.ltb Nat.leb] in H.
  - injection H as <-. exact Hkeep.
  - bind_inv H. rename a into pat. bind_inv H. rename a into score.
    destruct (flt score (snd best)) eqn:E.
    + bind_inv H. injection H as <-. cbn [fst snd].
      intros g0 [= <-]. exists seen, []. split; [reflexivity |].
      intros g' s' Hin Hne Hs Hnan.
      destruct Hof as (_ & Hmin & _).
      exact (@flt_below score (snd best) s' E (Hmin g' s' Hin Hne Hs) Hnan).
    + injection H as <-. exact Hkeep.
Qed.

(** X3.  The inner loop keeps the first of the best groups: when it selects
    a group, that group is non-empty, its score is [best_score], every
    non-empty group before it has a greater score (or NaN), and no
    non-empty group after it has a smaller one. *)
Theorem best_match_first_minimum (bd : BotDetector) (b : string)
    (groups : list group) (best : option group * pyfloat) (g : group) :
  outcome (best_match bd b groups) = Ok best ->
  fst best = Some g ->
  exists pre post,
    groups = pre ++ g :: post
    /\ g <> []
    /\ scored bd b g (snd best)
    /\ (forall g' s', In g' pre -> g' <> [] -> scored bd b g' s' ->
                      s' <> PNaN -> flt (snd best) s' = true)
    /\ (forall g' s', In g' post -> g' <> [] -> scored bd b g' s' ->
                      flt s' (snd best) = false).
Proof.
  intros H Hg. unfold best_match in H.
  pose proof (for_each_invariant (match_group bd b)
    (fun seen best =>
       best_of bd b seen best
       /\ (forall g0, fst best = Some g0 ->
            exists pre post,
              seen = pre ++ g0 :: post
              /\ forall g' s', In g' pre -> g' <> [] -> scored bd b g' s' ->
                               s' <> PNaN -> flt (snd best) s' = true)))
    as Hinv.
  specialize (Hinv (fun seen s x s' => @match_group_keeps_first bd b seen s s' x)).
  specialize (Hinv groups [] (None, PInf) best).
  destruct Hinv as [(Hbest & Hmin & _) Hfirst]; [| exact H |].
  - split; [| intros g0 [=]].
    split; [reflexivity | split; [intros ? ? [] | intros ? []]].
  - rewrite Hg in Hbest. destruct Hbest as (_ & Hne & Hs).
    destruct (Hfirst g Hg) as (pre & post & Heq & Hpre). cbn [app] in Heq.
    exists pre, post. repeat split; try assumption.
    intros g' s' Hin. apply Hmin. cbn [app]. rewrite Heq.
    apply in_or_app. right. now right.
Qed.

Lemma best_match_first_minimum_witness :
  outcome (best_match Sample.bd "L" [[(1, 1); (2, 1)]; []; [(9, 6); (9, 7)]])
  = Ok (Some [(1, 1); (2, 1)], PFin 0)
  /\ exists pre post,
       [[(1, 1); (2, 1)]; []; [(9, 6); (9, 7)]]
       = pre ++ [(1, 1); (2, 1)] :: post.
Proof.
  assert (H : outcome (best_match Sample.bd "L"
                         [[(1, 1); (2, 1)]; []; [(9, 6); (9, 7)]])
              = Ok (Some [(1, 1); (2, 1)], PFin 0)) by reflexivity.
  split; [exact H |].
  destruct (best_match_first_minimum Sample.bd "L" _ H eq_refl)
    as (pre & post & Heq & _).
  exists pre, post. exact Heq.
Defined.

Lemma printed_scores_app (tr1 tr2 : list event) :
  printed_scores (tr1 ++ tr2) = printed_scores tr1 ++ printed_scores tr2.
Proof.
  induction tr1 as [| e tr1 IH]; [reflexivity |].
  destruct e as [[] | | | | | | | | | | |]; simpl; now rewrite ?IH.
Qed.

Lemma last_cons_default {A : Type} (l : list A) (a d d' : A) :
  last (a :: l) d = last (a :: l) d'.
Proof.
  revert a. induction l as [| x l IH]; intros a; [reflexivity |].
  change (last (x :: l) d = last (x :: l) d'). apply IH.
Qed.

(** What one pass of the inner loop can do. *)
Lemma match_group_cases (bd : BotDetector) (b : string)
    (best : option group * pyfloat) (g : group) :
  match_group bd b best g = ([], Ok best)
  \/ (exists e, match_group bd b best g = ([], Raise e))
  \/ (exists score,
        flt score (snd best) = true
        /\ match_group bd b best g
           = ([EvPrint (MsgMatchingScore score)], Ok (Some g, score))).
Proof.
  unfold match_group. destruct (length g <? 1)%nat; [now left |].
  destruct (getPattern bd b) as [pat | e]; [| right; left; now exists e].
  unfold call. rewrite bind_pure.
  destruct (detectShape bd g pat) as [score | e];
    [| right; left; now exists e].
  rewrite bind_pure.
  destruct (flt score (snd best)) eqn:E; [| now left].
  right; right. now exists score.
Qed.

Lemma best_match_prints (bd : BotDetector) (b : string) (groups : list group) :
  forall best,
    let m := for_each (match_group bd b) groups best in
    Forall (fun s => flt s (snd best) = true) (printed_scores (trace m))
    /\ StronglySorted (fun s1 s2 => flt s2 s1 = true)
                      (printed_scores (trace m))
    /\ match outcome m with
       | Ok best' => snd best' = last (printed_scores (trace m)) (snd best)
       | Raise _ => True
       end.
Proof.
  induction groups as [| g groups IH]; intros best m.
  - repeat split; constructor.
  - subst m. cbn [for_each]. rewrite trace_bind, outcome_bind.
    destruct (match_group_cases bd b best g)
      as [-> | [[e ->] | (score & E & ->)]].
    + exact (IH best).
    + repeat split; constructor.
    + destruct (IH (Some g, score)) as (Hall & Hsorted & Hlast).
      cbn [snd] in Hall, Hlast. cbn [outcome trace fst snd].
      cbn [printed_scores app].
      set (rest := printed_scores
                     (trace (for_each (match_group bd b) groups
                               (Some g, score)))) in *.
      split; [| split].
      * constructor; [exact E |].
        eapply Forall_impl; [| exact Hall].
        intros s Hs. exact (flt_trans _ _ _ Hs E).
      * constructor; assumption.
      * destruct (outcome (for_each (match_group bd b) groups
                             (Some g, score))); [| exact I].
        rewrite Hlast. clearbody rest.
        destruct rest as [| r rest]; [reflexivity |].
        change (last (r :: rest) score = last (r :: rest) (snd best)).
        apply last_cons_default.
Qed.

(** X4.  For each bot the inner loop prints a score only when it is a new
    best: the scores printed are strictly decreasing, all below infinity,
    and when the loop returns, [best_score] is the last one printed, or
    infinity if none was. *)
Theorem matching_scores_decrease (bd : BotDetector) (b : string)
    (groups : list group) :
  let printed := printed_scores (trace (best_match bd b groups)) in
  StronglySorted (fun s1 s2 => flt s2 s1 = true) printed
  /\ Forall (fun s => flt s PInf = true) printed
  /\ match outcome (best_match bd b groups) with
     | Ok best => snd best = last printed PInf
     | Raise _ => True
     end.
Proof.
  destruct (best_match_prints bd b groups (None, PInf)) as (Hall & Hs & Hl).
  split; [exact Hs | split; [exact Hall | exact Hl]].
Qed.

Lemma for_each_raises {A S : Type} (body : S -> A -> M S) (xs : list A)
    (x : A) :
  In x xs ->
  (forall s, exists e, outcome (body s x) = Raise e) ->
  forall s, exists e, outcome (for_each body xs s) = Raise e.
Proof.
  intros Hin Hx. induction xs as [| y xs IH]; [easy |]. intros s.
  cbn [for_each]. rewrite outcome_bind.
  destruct (outcome (body s y)) as [s' | e] eqn:E; [| eauto].
  destruct Hin as [-> | Hin]; [| now apply IH].
  destruct (Hx s) as [e He]. congruence.
Qed.

Lemma best_match_raises (bd : BotDetector) (b : string) (groups : list group)
    (e : exn) :
  (exists g, In g groups /\ g <> []) ->
  getPattern bd b = Raise e ->
  forall best, outcome (for_each (match_group bd b) groups best) = Raise e.
Proof.
  intros (g & Hin & Hne) Hpat.
  induction groups as [| g' groups IH]; [easy |]. intros best.
  cbn [for_each]. rewrite outcome_bind. unfold match_group at 1.
  destruct g' as [| p g']; cbn [length Nat.ltb Nat.leb].
  - destruct Hin as [<- | Hin]; [congruence | now apply IH].
  - now rewrite outcome_bind, outcome_call, Hpat.
Qed.

(** X5.  The catalog is consulted frame by frame, not when the program
    starts: if [getPattern] raises for a bot of [bots_in_play], the
    assembly of every frame that has a non-empty group raises, and for the
    first bot, X, it raises that very exception. *)
Theorem missing_pattern_fails_frame (bd : BotDetector) (cam : OverheadCamera)
    (LEDs : list point) (groups : list group) (b : string) (e : exn) :
  groupNearbyPoints bd LEDs 1 = Ok groups ->
  (exists g, In g groups /\ g <> []) ->
  In b bots_in_play ->
  getPattern bd b = Raise e ->
  (exists e', outcome (assemble bd cam LEDs) = Raise e')
  /\ (b = "X"%string -> outcome (assemble bd cam LEDs) = Raise e).
Proof.
  intros Hg Hne Hb Hpat. unfold assemble.
  rewrite Hg. unfold call. rewrite bind_pure. split.
  - apply for_each_raises with b; [exact Hb |].
    intros d. exists e. unfold resolve_bot, best_match.
    now rewrite outcome_bind, (best_match_raises bd b _ Hne Hpat).
  - intros ->. unfold bots_in_play. cbn [for_each].
    rewrite outcome_bind. unfold resolve_bot at 1. unfold best_match.
    now rewrite outcome_bind, (best_match_raises bd "X" _ Hne Hpat).
Qed.

Lemma missing_pattern_fails_frame_witness :
  groupNearbyPoints SampleFaults.bd Sample.LEDs 1
  = Ok [[(1, 1); (2, 1)]; [(9, 6)]]
  /\ (exists g, In g [[(1, 1); (2, 1)]; [(9, 6)]] /\ g <> [])
  /\ In "X"%string bots_in_play
  /\ getPattern SampleFaults.bd "X" = Raise (Exception "KeyError")
  /\ outcome (assemble SampleFaults.bd Sample.cam Sample.LEDs)
     = Raise (Exception "KeyError").
Proof.
  assert (Hg : groupNearbyPoints SampleFaults.bd Sample.LEDs 1
               = Ok [[(1, 1); (2, 1)]; [(9, 6)]]) by reflexivity.
  assert (Hne : exists g : group, In g [[(1, 1); (2, 1)]; [(9, 6)]] /\ g <> []).
  { exists [(9, 6)]. split; [right; now left | discriminate]. }
  assert (Hb : In "X"%string bots_in_play) by now left.
  assert (Hp : getPattern SampleFaults.bd "X" = Raise (Exception "KeyError"))
    by reflexivity.
  split; [exact Hg | split; [exact Hne | split; [exact Hb | split; [exact Hp |]]]].
  exact (proj2 (@missing_pattern_fails_frame SampleFaults.bd Sample.cam
                  Sample.LEDs _ "X" _ Hg Hne Hb Hp) eq_refl).
Defined.

(** ** Runs of the main loop (lines 192-304) *)

Section Runs.

Variable bd : BotDetector.
Variable cam : OverheadCamera.

Lemma frame_body_no_release (conn : connection) (mark : Q) (f : frame_input) :
  Forall (fun e => is_release e = false)
         (trace (frame_body bd cam conn mark f)).
Proof.
  assert (Hsnap : Forall (fun e => is_release e = false)
                    (trace (frame_snapshot bd cam f))).
  { eapply Forall_impl; [| apply frame_snapshot_trace].
    intros [] He; try reflexivity; destruct He. }
  rewrite frame_body_eq. destruct (key_q f); [constructor |].
  destruct (outcome (frame_snapshot bd cam f)) as [snap | e]; [| exact Hsnap].
  unfold publish.
  destruct (send_result f) as [[] | [| n]], (recv_result f) as [[] | [| n']];
    cbn; rewrite ?Forall_app; repeat split; try exact Hsnap;
    repeat constructor.
Qed.

Lemma main_loop_no_release (conn : connection) (frames : list frame_input) :
  forall mark,
    Forall (fun e => is_release e = false)
           (trace (main_loop bd cam conn mark frames)).
Proof.
  induction frames as [| f frames IH]; intros mark; [constructor |].
  rewrite main_loop_cons_trace. apply Forall_app; split.
  - apply frame_body_no_release.
  - destruct (outcome (frame_body bd cam conn mark f)) as [[| m] | e];
      [constructor | apply IH | constructor].
Qed.

Lemma frame_body_survives (conn : connection) (mark : Q) (f : frame_input)
    (snap : dict position) :
  key_q f = false ->
  outcome (frame_snapshot bd cam f) = Ok snap ->
  survivable f = true ->
  outcome (frame_body bd cam conn mark f) = Ok (Continue mark).
Proof.
  intros Hq Hsnap Hs. rewrite frame_body_eq, Hq, Hsnap. unfold publish.
  unfold survivable in Hs.
  destruct (send_result f) as [[] | [| n]], (recv_result f) as [[] | [| n']];
    try discriminate; reflexivity.
Qed.

End Runs.

(** X6.  Whatever the frames bring, the socket events of the loop are sends
    on the accepted connection, each followed by at most one read on that
    connection: the loop never reads twice in a row, never reads before it
    has sent, and never uses another connection. *)
Theorem loop_sends_then_reads (bd : BotDetector) (cam : OverheadCamera)
    (conn : connection) (frames : list frame_input) (mark : Q) :
  send_recv_cycles conn
    (socket_events (trace (main_loop bd cam conn mark frames))) = true.
Proof.
  revert mark. induction frames as [| f frames IH]; intros mark;
    [reflexivity |].
  rewrite main_loop_cons_trace, socket_events_app, frame_body_socket_events.
  assert (Hrest : forall tr,
            send_recv_cycles conn tr = true ->
            starts_with_recv tr = false ->
            forall data,
              send_recv_cycles conn (cycle conn data (send_result f) ++ tr)
              = true).
  { intros tr Hc Hr data. unfold cycle.
    destruct (send_result f) as [[] | e]; cbn [app send_recv_cycles].
    - now rewrite !Nat.eqb_refl.
    - rewrite Nat.eqb_refl. destruct tr as [| [] tr]; try exact Hc.
      discriminate. }
  destruct (outcome (frame_body bd cam conn mark f)) as [[| m] | e].
  - rewrite app_nil_r. destruct (key_q f); [reflexivity |].
    destruct (outcome (frame_snapshot bd cam f)); [| reflexivity].
    rewrite <- (app_nil_r (cycle _ _ _)). now apply Hrest.
  - destruct (key_q f); [apply IH |].
    destruct (outcome (frame_snapshot bd cam f)); [| apply IH].
    apply Hrest; [apply IH | apply main_loop_starts_with_send].
  - rewrite app_nil_r. destruct (key_q f); [reflexivity |].
    destruct (outcome (frame_snapshot bd cam f)); [| reflexivity].
    rewrite <- (app_nil_r (cycle _ _ _)). now apply Hrest.
Qed.

(** X7.  As long as no frame stops the loop, every snapshot is produced and
    no send or read raises anything but [BrokenPipeError], the loop is
    still running after any number of frames, with [mark] unchanged, and it
    has handed one packet per frame to [conn.send], in the order of the
    frames: the snapshot of that frame. *)
Theorem loop_survives_broken_pipes (bd : BotDetector) (cam : OverheadCamera)
    (conn : connection) (frames : list frame_input) (mark : Q) :
  Forall (fun f =>
    key_q f = false /\ survivable f = true
    /\ exists snap, outcome (frame_snapshot bd cam f) = Ok snap) frames ->
  outcome (main_loop bd cam conn mark frames) = Ok (Running mark)
  /\ Forall2 (fun f data =>
       exists snap, outcome (frame_snapshot bd cam f) = Ok snap
                    /\ data = json_of_positions snap)
       frames (sent (trace (main_loop bd cam conn mark frames))).
Proof.
  induction 1 as [| f frames (Hq & Hs & snap & Hsnap) _ [IHo IHs]].
  - split; [reflexivity | constructor].
  - pose proof (@frame_body_survives bd cam conn mark f snap Hq Hsnap Hs)
      as Hout.
    rewrite main_loop_cons_outcome, main_loop_cons_trace, Hout, sent_app.
    rewrite frame_body_sent, Hq, Hsnap. split; [exact IHo |].
    constructor; [eauto | exact IHs].
Qed.

Lemma loop_survives_broken_pipes_witness :
  Forall (fun f =>
    key_q f = false /\ survivable f = true
    /\ exists snap,
         outcome (frame_snapshot Sample.bd Sample.cam f) = Ok snap)
    [Sample.frame; Sample.dark_frame_send_fails; Sample.dark_frame]
  /\ outcome (main_loop Sample.bd Sample.cam Sample.conn 9
                [Sample.frame; Sample.dark_frame_send_fails;
                 Sample.dark_frame])
     = Ok (Running 9).
Proof.
  assert (H : Forall (fun f =>
                key_q f = false /\ survivable f = true
                /\ exists snap,
                     outcome (frame_snapshot Sample.bd Sample.cam f) = Ok snap)
                [Sample.frame; Sample.dark_frame_send_fails;
                 Sample.dark_frame]).
  { repeat constructor;
      solve [exists Sample.snapshot; reflexivity
            | exists Sample.dark_snapshot; reflexivity]. }
  split; [exact H |].
  exact (proj1 (@loop_survives_broken_pipes Sample.bd Sample.cam Sample.conn
                  _ 9 H)).
Defined.

(** X8.  When the key q is down in a frame that a running loop reaches,
    that frame is not processed and the frames after it are never read:
    [main] adds to what the loop did before only the close of the
    connection, its message, the destruction of the window and the release
    of the camera, in this order, and returns. *)
Theorem quit_key_stops_and_releases (bd : BotDetector) (cam : OverheadCamera)
    (conn : connection) (start mark : Q) (history rest : list frame_input)
    (f : frame_input) :
  outcome (main_loop bd cam conn start history) = Ok (Running mark) ->
  key_q f = true ->
  main bd cam conn start (history ++ f :: rest)
  = (trace (main_loop bd cam conn start history)
     ++ [EvClose conn; EvPrint MsgSocketClosed; EvDestroyAllWindows;
         EvRelease],
     Ok Stopped).
Proof.
  intros Hrun Hq.
  destruct (main_loop_app bd cam conn history (f :: rest) start Hrun)
    as [Htr Hout].
  assert (Hstop : main_loop bd cam conn mark (f :: rest) = ([], Ok Stopped)).
  { cbn [main_loop]. unfold frame_body. now rewrite Hq. }
  rewrite Hstop in Htr, Hout. cbn [trace outcome fst snd] in Htr, Hout.
  rewrite app_nil_r in Htr.
  rewrite main_eq. unfold outcome, trace in *. rewrite Hout, Htr.
  reflexivity.
Qed.

Lemma quit_key_stops_and_releases_witness :
  outcome (main_loop Sample.bd Sample.cam Sample.conn 9 [Sample.dark_frame])
  = Ok (Running 9)
  /\ key_q SampleFaults.quit_frame = true
  /\ main Sample.bd Sample.cam Sample.conn 9
       ([Sample.dark_frame] ++ SampleFaults.quit_frame :: [Sample.frame])
     = (trace (main_loop Sample.bd Sample.cam Sample.conn 9
                 [Sample.dark_frame])
        ++ [EvClose Sample.conn; EvPrint MsgSocketClosed;
            EvDestroyAllWindows; EvRelease],
        Ok Stopped).
Proof.
  assert (H : outcome (main_loop Sample.bd Sample.cam Sample.conn 9
                         [Sample.dark_frame]) = Ok (Running 9))
    by reflexivity.
  assert (Hq : key_q SampleFaults.quit_frame = true) by reflexivity.
  split; [exact H | split; [exact Hq |]].
  exact (@quit_key_stops_and_releases Sample.bd Sample.cam Sample.conn 9 9
           [Sample.dark_frame] [Sample.frame] SampleFaults.quit_frame H Hq).
Defined.

(** X9.  Nothing is released when an exception leaves [main]: the run has
    then neither closed the connection, nor destroyed the window, nor
    released the camera. *)
Theorem no_release_on_exception (bd : BotDetector) (cam : OverheadCamera)
    (conn : connection) (start : Q) (frames : list frame_input) (e : exn) :
  outcome (main bd cam conn start frames) = Raise e ->
  Forall (fun ev => is_release ev = false)
         (trace (main bd cam conn start frames)).
Proof.
  intros H. rewrite main_eq in H |- *.
  pose proof (main_loop_no_release bd cam conn frames start) as Hloop.
  destruct (outcome (main_loop bd cam conn start frames)) as [[| m] | e'];
    [discriminate | exact Hloop | exact Hloop].
Qed.

Lemma no_release_on_exception_witness :
  outcome (main Sample.bd Sample.cam Sample.conn 9
             [Sample.frame; SampleFaults.frame_reset; Sample.dark_frame])
  = Raise (Exception "ConnectionResetError")
  /\ Forall (fun ev => is_release ev = false)
       (trace (main Sample.bd Sample.cam Sample.conn 9
                 [Sample.frame; SampleFaults.frame_reset; Sample.dark_frame])).
Proof.
  assert (H : outcome (main Sample.bd Sample.cam Sample.conn 9
                         [Sample.frame; SampleFaults.frame_reset;
                          Sample.dark_frame])
              = Raise (Exception "ConnectionResetError")) by reflexivity.
  split; [exact H | exact (no_release_on_exception _ _ _ _ _ H)].
Defined.

(** X10.  The handler of the main loop covers the send and the read only:
    an exception raised while the LEDs are detected or the dictionary is
    assembled, be it [BrokenPipeError], ends the run with that exception;
    nothing is sent for the frame, nothing is read, and the frames after it
    are not processed. *)
Theorem snapshot_failure_ends_run (bd : BotDetector) (cam : OverheadCamera)
    (conn : connection) (mark : Q) (f : frame_input)
    (frames : list frame_input) (e : exn) :
  key_q f = false ->
  outcome (frame_snapshot bd cam f) = Raise e ->
  main_loop bd cam conn mark (f :: frames)
  = (trace (frame_snapshot bd cam f), Raise e)
  /\ socket_events (trace (main_loop bd cam conn mark (f :: frames))) = [].
Proof.
  intros Hq Hsnap.
  assert (Hbody : frame_body bd cam conn mark f
                  = (trace (frame_snapshot bd cam f), Raise e))
    by now rewrite frame_body_eq, Hq, Hsnap.
  assert (Hloop : main_loop bd cam conn mark (f :: frames)
                  = (trace (frame_snapshot bd cam f), Raise e))
    by (cbn [main_loop]; now rewrite Hbody).
  split; [exact Hloop |].
  rewrite Hloop. exact (proj1 (prints_no_socket (frame_snapshot_trace bd cam f))).
Qed.

Lemma snapshot_failure_ends_run_witness :
  key_q Sample.frame = false
  /\ outcome (frame_snapshot SampleFaults.bd Sample.cam Sample.frame)
     = Raise (Exception "KeyError")
  /\ socket_events
       (trace (main_loop SampleFaults.bd Sample.cam Sample.conn 9
                 (Sample.frame :: [Sample.dark_frame])))
     = [].
Proof.
  assert (Hq : key_q Sample.frame = false) by reflexivity.
  assert (H : outcome (frame_snapshot SampleFaults.bd Sample.cam Sample.frame)
              = Raise (Exception "KeyError")) by reflexivity.
  split; [exact Hq | split; [exact H |]].
  exact (proj2 (@snapshot_failure_ends_run SampleFaults.bd Sample.cam
                  Sample.conn 9 Sample.frame [Sample.dark_frame] _ Hq H)).
Defined.

(** ** The recording of the frames (lines 176-180 and 238-244) *)

(** The recording step of the main loop is [Recording.save_frame] at the
    value [main.py] gives to [SAVE_FRAME_RATE], where it needs no
    arithmetic. *)
Lemma frame_body_records (bd : BotDetector) (cam : OverheadCamera)
    (conn : connection) (mark : Q) (f : frame_input) (mark' : Q)
    (fdiv fsub fadd : Q -> Q -> Q) :
  outcome (frame_body bd cam conn mark f) = Ok (Continue mark') ->
  mark' = snd (Recording.save_frame SAVE_FRAME_RATE fdiv fsub fadd
                 mark (now f)).
Proof.
  rewrite frame_body_eq. destruct (key_q f); [discriminate |].
  destruct (outcome (frame_snapshot bd cam f)); [| discriminate].
  cbv zeta.
  destruct (outcome (try_except_BrokenPipeError _ _)); [| discriminate].
  now intros [= <-].
Qed.

(** X11.  With [SAVE_FRAME_RATE] at zero or below, as line 28 says, no
    image is written, whatever the clock does and however the floats are
    rounded, and [mark] stays at the start time. *)
Theorem no_recording_without_rate (rate : Z) (fdiv fsub fadd : Q -> Q -> Q)
    (mark : Q) (nows : list Q) :
  (rate <= 0)%Z ->
  Recording.save_frames rate fdiv fsub fadd mark nows = ([], mark).
Proof.
  intros Hrate.
  assert (Hoff : Recording.record rate = false)
    by (unfold Recording.record; now apply Z.ltb_ge).
  induction nows as [| now nows IH]; [reflexivity |].
  cbn [Recording.save_frames]. unfold Recording.save_frame.
  now rewrite Hoff, IH.
Qed.

Lemma no_recording_without_rate_witness :
  (SAVE_FRAME_RATE <= 0)%Z
  /\ Recording.save_frames SAVE_FRAME_RATE Qdiv Qminus Qplus 9 [10; 11; 12]
     = ([], 9).
Proof.
  assert (H : (SAVE_FRAME_RATE <= 0)%Z) by (unfold SAVE_FRAME_RATE; lia).
  split; [exact H |].
  exact (no_recording_without_rate Qdiv Qminus Qplus 9 [10; 11; 12] H).
Defined.

(** X12.  The recording is throttled by [mark].  For every value of
    [SAVE_FRAME_RATE], every clock and every rounding of the division and
    of the addition, at most one image is written per iteration, and
    [mark] is the start time to which [frame_interval] was added, with
    that rounding, once per image written.  If moreover the subtraction
    never gives a result of zero or more when [now] is below [mark], the
    image number [k] (from 0) carries a time that is not below the start
    time with [frame_interval] added [k] times. *)
Theorem recording_throttled (rate : Z) (fdiv fsub fadd : Q -> Q -> Q)
    (nows : list Q) :
  let advance := fun mark =>
    fadd mark (Recording.frame_interval rate fdiv) in
  forall mark tr mark',
    Recording.save_frames rate fdiv fsub fadd mark nows = (tr, mark') ->
    mark' = Nat.iter (length tr) advance mark
    /\ (length tr <= length nows)%nat
    /\ ((forall x y, 0 <= fsub x y -> y <= x) ->
        forall k now,
          nth_error tr k = Some (EvImwrite now) ->
          Nat.iter k advance mark <= now).
Proof.
  intros advance.
  induction nows as [| now0 nows IH]; intros mark tr mark' H.
  - injection H as <- <-. split; [reflexivity | split; [reflexivity |]].
    intros _ [| k] now; discriminate.
  - cbn [Recording.save_frames] in H. unfold Recording.save_frame in H.
    fold advance in H.
    destruct (Recording.record rate);
      [destruct (Qle_bool 0 (fsub now0 mark)) eqn:E |].
    + fold (advance mark) in H.
      destruct (Recording.save_frames rate fdiv fsub fadd (advance mark) nows)
        as [tr1 mark1] eqn:E1.
      injection H as <- <-.
      destruct (IH _ _ _ E1) as (Hmark & Hlen & Hnth).
      apply Qle_bool_iff in E.
      split; [| split].
      * cbn [app length]. now rewrite Nat.iter_succ_r.
      * cbn [app length]. lia.
      * intros Hsub [| k] now Hk; cbn [app nth_error] in Hk.
        -- injection Hk as <-. exact (Hsub _ _ E).
        -- rewrite Nat.iter_succ_r. exact (Hnth Hsub k now Hk).
    + destruct (Recording.save_frames rate fdiv fsub fadd mark nows)
        as [tr1 mark1] eqn:E1.
      injection H as <- <-.
      destruct (IH _ _ _ E1) as (Hmark & Hlen & Hnth).
      split; [exact Hmark | split; [cbn [app length]; lia | exact Hnth]].
    + destruct (Recording.save_frames rate fdiv fsub fadd mark nows)
        as [tr1 mark1] eqn:E1.
      injection H as <- <-.
      destruct (IH _ _ _ E1) as (Hmark & Hlen & Hnth).
      split; [exact Hmark | split; [cbn [app length]; lia | exact Hnth]].
Qed.

Lemma recording_throttled_witness :
  Recording.save_frames 2 Qdiv Qminus Qplus 0 [0; 1 # 4; 1 # 2; 3; 3]
  = ([EvImwrite 0; EvImwrite (1 # 2); EvImwrite 3; EvImwrite 3],
     0 + (1 # 2) + (1 # 2) + (1 # 2) + (1 # 2))
  /\ (forall x y, 0 <= x - y -> y <= x)
  /\ nth_error [EvImwrite 0; EvImwrite (1 # 2); EvImwrite 3; EvImwrite 3] 2
     = Some (EvImwrite 3)
  /\ Nat.iter 2 (fun mark => mark + Recording.frame_interval 2 Qdiv) 0 <= 3.
Proof.
  assert (H : Recording.save_frames 2 Qdiv Qminus Qplus 0
                [0; 1 # 4; 1 # 2; 3; 3]
              = ([EvImwrite 0; EvImwrite (1 # 2); EvImwrite 3; EvImwrite 3],
                 0 + (1 # 2) + (1 # 2) + (1 # 2) + (1 # 2))) by reflexivity.
  assert (Hsub : forall x y, 0 <= x - y -> y <= x) by (intros x y Hxy; lra).
  assert (Hk : nth_error [EvImwrite 0; EvImwrite (1 # 2); EvImwrite 3;
                          EvImwrite 3] 2 = Some (EvImwrite 3)) by reflexivity.
  split; [exact H | split; [exact Hsub | split; [exact Hk |]]].
  exact (proj2 (proj2 (recording_throttled 2 Qdiv Qminus Qplus _ 0 H))
           Hsub 2%nat 3 Hk).
Defined.

(** ** [makeVideo] (lines 54-68) *)

Section Strings.

Import MakeVideo.

Local Open Scope string_scope.

Lemma string_length_append (s1 s2 : string) :
  String.length (s1 ++ s2) = (String.length s1 + String.length s2)%nat.
Proof. induction s1 as [| c s1 IH]; simpl; [reflexivity | now rewrite IH]. Qed.

Lemma substring_whole (s : string) : substring 0 (String.length s) s = s.
Proof. induction s as [| c s IH]; simpl; [reflexivity | now rewrite IH]. Qed.

Lemma substring_after (pre s : string) (m : nat) :
  substring (String.length pre) m (pre ++ s) = substring 0 m s.
Proof. induction pre as [| c pre IH]; simpl; [reflexivity | exact IH]. Qed.

Lemma substring_split (s : string) :
  forall k, (k <= String.length s)%nat ->
            s = substring 0 k s ++ substring k (String.length s - k) s.
Proof.
  induction s as [| c s IH]; intros [| k] Hk; simpl in *.
  - reflexivity.
  - lia.
  - now rewrite substring_whole.
  - f_equal. apply IH. lia.
Qed.

(** [endswith] holds exactly of the strings that end with the suffix. *)
Lemma endswith_spec (s suffix : string) :
  endswith s suffix = true <-> exists pre, s = pre ++ suffix.
Proof.
  unfold endswith. rewrite andb_true_iff, Nat.leb_le, String.eqb_eq. split.
  - intros [Hle Hsub].
    exists (substring 0 (String.length s - String.length suffix) s).
    assert (Hk : (String.length s - String.length suffix
                  <= String.length s)%nat) by lia.
    pose proof (substring_split s Hk) as Hsplit.
    replace (String.length s - (String.length s - String.length suffix))%nat
      with (String.length suffix) in Hsplit by lia.
    now rewrite Hsub in Hsplit.
  - intros [pre ->]. rewrite string_length_append. split; [lia |].
    replace (String.length pre + String.length suffix - String.length suffix)%nat
      with (String.length pre) by lia.
    rewrite substring_after. apply substring_whole.
Qed.

Lemma string_leb_trans (a b c : string) :
  String.leb a b = true -> String.leb b c = true -> String.leb a c = true.
Proof.
  unfold String.leb. revert b c.
  induction a as [| x a IH]; intros [| y b] [| z c]; simpl;
    try reflexivity; try discriminate.
  unfold Ascii.compare.
  destruct (N.compare_spec (Ascii.N_of_ascii x) (Ascii.N_of_ascii y))
    as [Hxy | Hxy | Hxy];
    destruct (N.compare_spec (Ascii.N_of_ascii y) (Ascii.N_of_ascii z))
      as [Hyz | Hyz | Hyz];
    destruct (N.compare_spec (Ascii.N_of_ascii x) (Ascii.N_of_ascii z))
      as [Hxz | Hxz | Hxz];
    try discriminate; try reflexivity; try lia.
  apply IH.
Qed.

Lemma insert_perm (x : string) (l : list string) :
  Permutation (insert x l) (x :: l).
Proof.
  induction l as [| y l IH]; simpl; [constructor; constructor |].
  destruct (String.leb x y); [reflexivity |].
  rewrite IH. apply perm_swap.
Qed.

Lemma sorted_perm (names : list string) : Permutation (sorted names) names.
Proof.
  induction names as [| x names IH]; simpl; [constructor |].
  rewrite insert_perm. now constructor.
Qed.

Lemma insert_sorted (x : string) (l : list string) :
  StronglySorted (fun a b => String.leb a b = true) l ->
  StronglySorted (fun a b => String.leb a b = true) (insert x l).
Proof.
  induction 1 as [| y l Hl IH Hy]; simpl; [repeat constructor |].
  destruct (String.leb x y) eqn:E.
  - constructor; [now constructor |].
    constructor; [exact E |].
    eapply Forall_impl; [| exact Hy].
    intros z Hz. exact (string_leb_trans _ _ _ E Hz).
  - constructor; [exact IH |].
    rewrite (insert_perm x l). constructor; [| exact Hy].
    destruct (String.leb_total x y); congruence.
Qed.

Lemma sorted_sorted (names : list string) :
  StronglySorted (fun a b => String.leb a b = true) (sorted names).
Proof.
  induction names as [| x names IH]; simpl;
    [constructor | now apply insert_sorted].
Qed.

Lemma filter_sorted {A : Type} (R : A -> A -> Prop) (f : A -> bool)
    (l : list A) :
  StronglySorted R l -> StronglySorted R (filter f l).
Proof.
  induction 1 as [| x l Hl IH Hx]; simpl; [constructor |].
  destruct (f x); [| exact IH].
  constructor; [exact IH |].
  rewrite Forall_forall in *. intros y Hy. apply Hx.
  now apply filter_In in Hy.
Qed.

Lemma filter_perm {A : Type} (f : A -> bool) (l l' : list A) :
  Permutation l l' -> Permutation (filter f l) (filter f l').
Proof.
  induction 1 as [| x l l' _ IH | x y l | l l' l'' _ IH1 _ IH2]; simpl.
  - constructor.
  - destruct (f x); [now constructor | exact IH].
  - destruct (f x), (f y); try reflexivity. apply perm_swap.
  - now rewrite IH1.
Qed.

End Strings.

Section MakeVideoFacts.

Import MakeVideo.

Local Open Scope string_scope.

Variable image : Type.
Variable listdir : string -> result (list string).
Variable path_join : string -> string -> string.
Variable imread : string -> image.
Variable shape : image -> result (Z * Z * Z).

(** X13.  In a folder where no name ends with ".jpg", [makeVideo] returns
    without creating the video file and without reading any image. *)
Theorem makeVideo_without_images (name image_folder : string)
    (names : list string) :
  listdir image_folder = Ok names ->
  Forall (fun img => endswith img ".jpg" = false) names ->
  makeVideo listdir path_join imread shape name image_folder = Ok [].
Proof.
  intros Hdir Hnone. unfold makeVideo. rewrite Hdir.
  assert (Hempty : filter (fun img => endswith img ".jpg") (sorted names) = []).
  { rewrite <- (sorted_perm names) in Hnone.
    induction Hnone as [| x l Hx _ IH]; simpl; [reflexivity |].
    now rewrite Hx. }
  now rewrite Hempty.
Qed.

(** X14.  When [makeVideo] returns after it found images, it has created
    one video file, [name + ".mp4"], at [SAVE_FRAME_RATE] frames per second
    and with the width and height of the first image; written to it every
    file of the folder whose name ends with ".jpg", once each and in
    ascending order of the names, and no other file; and released the
    writer at the end. *)
Theorem makeVideo_writes_sorted_images (name image_folder : string)
    (names : list string) (ops : list (video_op image)) :
  listdir image_folder = Ok names ->
  makeVideo listdir path_join imread shape name image_folder = Ok ops ->
  ops <> [] ->
  exists images height width layers,
    Permutation images (filter (fun img => endswith img ".jpg") names)
    /\ StronglySorted (fun a b => String.leb a b = true) images
    /\ shape (imread (path_join image_folder (hd ""%string images)))
       = Ok (height, width, layers)
    /\ ops = VideoWriter image (name ++ ".mp4") "mp4v" SAVE_FRAME_RATE
                         (width, height)
             :: map (fun img => Write (imread (path_join image_folder img)))
                    images
             ++ [Release image].
Proof.
  intros Hdir H Hops. unfold makeVideo in H. rewrite Hdir in H.
  set (images := filter (fun img => endswith img ".jpg") (sorted names)) in *.
  destruct (length images <? 1)%nat; [injection H as <-; congruence |].
  destruct (shape (imread (path_join image_folder (hd ""%string images))))
    as [[[height width] layers] | e] eqn:E; [| discriminate].
  injection H as <-.
  exists images, height, width, layers. repeat split.
  - apply filter_perm, sorted_perm.
  - apply filter_sorted, sorted_sorted.
  - exact E.
Qed.

End MakeVideoFacts.

Local Open Scope string_scope.

Lemma makeVideo_without_images_witness :
  (fun _ : string => Ok ["notes.txt"; "a.png"]%string) "recording"%string
  = Ok ["notes.txt"; "a.png"]%string
  /\ Forall (fun img => MakeVideo.endswith img ".jpg" = false)
       ["notes.txt"; "a.png"]%string
  /\ MakeVideo.makeVideo (fun _ => Ok ["notes.txt"; "a.png"]%string)
       SampleFaults.path_join SampleFaults.imread SampleFaults.shape
       "recording" "recording"
     = Ok [].
Proof.
  assert (Hdir : (fun _ : string => Ok ["notes.txt"; "a.png"]%string)
                   "recording"%string
                 = Ok ["notes.txt"; "a.png"]%string) by reflexivity.
  assert (Hnone : Forall (fun img => MakeVideo.endswith img ".jpg" = false)
                    ["notes.txt"; "a.png"]%string)
    by (repeat constructor).
  split; [exact Hdir | split; [exact Hnone |]].
  exact (@makeVideo_without_images string
           (fun _ => Ok ["notes.txt"; "a.png"]%string)
           SampleFaults.path_join SampleFaults.imread SampleFaults.shape
           "recording" "recording" _ Hdir Hnone).
Defined.

Lemma makeVideo_writes_sorted_images_witness :
  SampleFaults.listdir "recording" = Ok ["11.5.jpg"; "notes.txt"; "10.5.jpg"]%string
  /\ MakeVideo.makeVideo SampleFaults.listdir SampleFaults.path_join
       SampleFaults.imread SampleFaults.shape "recording" "recording"
     = Ok [MakeVideo.VideoWriter string "recording.mp4" "mp4v" 0
             (1280, 720)%Z;
           MakeVideo.Write "recording/10.5.jpg"%string;
           MakeVideo.Write "recording/11.5.jpg"%string;
           MakeVideo.Release string]
  /\ exists images,
       Permutation images
         (filter (fun img => MakeVideo.endswith img ".jpg")
            ["11.5.jpg"; "notes.txt"; "10.5.jpg"]%string)
       /\ StronglySorted (fun a b => String.leb a b = true) images.
Proof.
  assert (Hdir : SampleFaults.listdir "recording"
                 = Ok ["11.5.jpg"; "notes.txt"; "10.5.jpg"]%string)
    by reflexivity.
  assert (H : MakeVideo.makeVideo SampleFaults.listdir SampleFaults.path_join
                SampleFaults.imread SampleFaults.shape "recording" "recording"
              = Ok [MakeVideo.VideoWriter string "recording.mp4" "mp4v" 0
                      (1280, 720)%Z;
                    MakeVideo.Write "recording/10.5.jpg"%string;
                    MakeVideo.Write "recording/11.5.jpg"%string;
                    MakeVideo.Release string]) by reflexivity.
  split; [exact Hdir | split; [exact H |]].
  destruct (@makeVideo_writes_sorted_images string SampleFaults.listdir
              SampleFaults.path_join SampleFaults.imread SampleFaults.shape
              "recording" "recording" _ _ Hdir H ltac:(discriminate))
    as (images & _ & _ & _ & Hperm & Hsorted & _).
  exists images. split; assumption.
Defined.
